(** * news_generator: the masking procedure of [create_mask_data.py]

    A shallow embedding of [mask_article] and of the Python primitives it
    relies on (string splitting on a character class, slicing, indexing,
    [str.join], [random()] and [randrange]), followed by the properties of
    the masking procedure. *)

From Stdlib Require Import String List ZArith NArith QArith Bool Lia.
Import ListNotations.

Local Open Scope Z_scope.

(** ** Python values *)

(** A Python [str] is a sequence of Unicode code points. *)
Definition char := N.
Definition pystr := list char.

Definition char_eqb (a b : char) : bool := N.eqb a b.

Fixpoint str_eqb (s t : pystr) : bool :=
  match s, t with
  | [], [] => true
  | a :: s', b :: t' => char_eqb a b && str_eqb s' t'
  | _, _ => false
  end.

(** [sep.join(xs)] *)
Fixpoint join (sep : pystr) (xs : list pystr) : pystr :=
  match xs with
  | [] => []
  | [x] => x
  | x :: xs' => x ++ sep ++ join sep xs'
  end.

(** Normalisation of a slice bound against a sequence of length [len]:
    a negative bound counts from the end, and both ends are clamped. *)
Definition slice_bound (len i : Z) : Z :=
  if i <? 0 then Z.max (i + len) 0 else Z.min i len.

(** [xs[lo:hi]] *)
Definition py_slice {A} (xs : list A) (lo hi : Z) : list A :=
  let len := Z.of_nat (length xs) in
  let lo' := slice_bound len lo in
  let hi' := slice_bound len hi in
  firstn (Z.to_nat (hi' - lo')) (skipn (Z.to_nat lo') xs).

(** [xs[:hi]] *)
Definition py_slice_to {A} (xs : list A) (hi : Z) : list A :=
  py_slice xs 0 hi.

(** ** Exceptions, the random source and the monad of the procedure *)

Inductive exn := ValueError | IndexError.

Inductive result (A : Type) :=
| Ok (a : A)
| Raise (e : exn)
| OutOfFuel.
Arguments Ok {A} a.
Arguments Raise {A} e.
Arguments OutOfFuel {A}.

(** The process-wide generator of the [random] module: an unbounded tape
    of raw draws and the number of draws consumed so far. *)
Record Random := mkRandom { tape : nat -> N; consumed : nat }.

Definition M (A : Type) : Type := Random -> result (A * Random).

Definition ret {A} (a : A) : M A := fun r => Ok (a, r).

Definition bind {A B} (m : M A) (k : A -> M B) : M B :=
  fun r =>
    match m r with
    | Ok (a, r') => k a r'
    | Raise e => Raise e
    | OutOfFuel => OutOfFuel
    end.

Definition raise {A} (e : exn) : M A := fun _ => Raise e.

Notation "x <- c1 ;; c2" := (bind c1 (fun x => c2))
  (at level 61, c1 at next level, right associativity).

Definition next_draw : M N :=
  fun r => Ok (tape r (consumed r), mkRandom (tape r) (S (consumed r))).

(** [random()]: a float [k / 2^53] with [0 <= k < 2^53]. *)
Definition two53 : positive := 9007199254740992.

Definition random : M Q :=
  k <- next_draw ;;
  ret (Qmake (Z.of_N k mod Zpos two53) two53).

(** [randrange(start, stop)]: [start + _randbelow(stop - start)], and a
    [ValueError] on an empty range. *)
Definition randrange (start stop : Z) : M Z :=
  let width := stop - start in
  if 0 <? width then
    k <- next_draw ;;
    ret (start + Z.of_N k mod width)
  else raise ValueError.

(** [x < p] on finite floats, which are rationals. *)
Definition Qltb (x p : Q) : bool :=
  Qnum x * Zpos (Qden p) <? Qnum p * Zpos (Qden x).

(** [xs[i]] *)
Definition py_index {A} (xs : list A) (i : Z) : M A :=
  let len := Z.of_nat (length xs) in
  let i' := if i <? 0 then i + len else i in
  if (0 <=? i') && (i' <? len) then
    match nth_error xs (Z.to_nat i') with
    | Some x => ret x
    | None => raise IndexError
    end
  else raise IndexError.

(** ** The tokenizer, an external collaborator *)

Record Tokenizer := mkTokenizer {
  tokenize : pystr -> list pystr;
  model_max_length : Z;
  mask_token : pystr
}.

(** ** [mask_article] *)

(** The character class of [sentence_spliter]:
    [，,。：,:；;！!？?] as code points. *)
Definition is_delim (c : char) : bool :=
  existsb (char_eqb c)
    [65292; 44; 12290; 65306; 44; 58; 65307; 59; 65281; 33; 65311; 63]%N.

(** [sentence_spliter.split(article)]: the pattern is one capturing
    group, so the matched characters are kept between the fragments. *)
Fixpoint split_from (cur : pystr) (s : pystr) : list pystr :=
  match s with
  | [] => [rev cur]
  | c :: s' =>
      if is_delim c then rev cur :: [c] :: split_from [] s'
      else split_from (c :: cur) s'
  end.

Definition sentence_split (article : pystr) : list pystr :=
  split_from [] article.

Definition alphabet : list pystr :=
  [[65292]; [44]; [12290]; [65306]; [58]; [65307]; [59];
   [65281]; [33]; [65311]; [63]]%N.

(** [sent in alphabet] *)
Definition in_alphabet (sent : pystr) : bool :=
  existsb (str_eqb sent) alphabet.

(** [''.join(tokenizer.tokenize(article)[:tokenizer.model_max_length])] *)
Definition truncate (tokenizer : Tokenizer) (article : pystr) : pystr :=
  join [] (py_slice_to (tokenize tokenizer article)
                       (model_max_length tokenizer)).

Record Params := mkParams {
  document_mask_p : Q;
  sentence_mask_p : Q;
  word_mask_p : Q;
  ngram_mask_p : Q;
  min_ngram_length : Z;
  max_ngram_length : Z
}.

(** The defaults of the signature. *)
Definition default_params : Params :=
  mkParams (3 # 100) (7 # 100) (1 # 10) (1 # 2) 2 6.

(** The variables the loops update. *)
Record Acc := mkAcc {
  masked_sentences : list pystr;
  answer : list pystr
}.

Record Cursor := mkCursor {
  word_idx : Z;
  acc : Acc
}.

Section MaskArticle.
Variable tokenizer : Tokenizer.
Variable p : Params.

Let mask := mask_token tokenizer.

(** One iteration of the [while] loop, entered with
    [word_idx < len(tokenized_sent)]. *)
Definition loop_body (tokenized_sent : list pystr) (st : Cursor)
  : M Cursor :=
  let i := word_idx st in
  let ms := masked_sentences (acc st) in
  let ans := answer (acc st) in
  u <- random ;;
  if Qltb u (word_mask_p p) then
    v <- random ;;
    if Qltb v (ngram_mask_p p) then
      n <- randrange (min_ngram_length p) (max_ngram_length p) ;;
      ret (mkCursor (i + n)
             (mkAcc (ms ++ [mask])
                    (ans ++ [join [] (py_slice tokenized_sent i (i + n))])))
    else
      t <- py_index tokenized_sent i ;;
      ret (mkCursor (i + 1) (mkAcc (ms ++ [mask]) (ans ++ [t])))
  else
    t <- py_index tokenized_sent i ;;
    ret (mkCursor (i + 1) (mkAcc (ms ++ [t]) ans)).

(** [while word_idx < len(tokenized_sent): ...], with a bound on the
    number of iterations. *)
Fixpoint while_loop (fuel : nat) (tokenized_sent : list pystr)
         (st : Cursor) : M Cursor :=
  if word_idx st <? Z.of_nat (length tokenized_sent) then
    match fuel with
    | O => fun _ => OutOfFuel
    | S fuel' =>
        st' <- loop_body tokenized_sent st ;;
        while_loop fuel' tokenized_sent st'
    end
  else ret st.

(** The body of [for sent in sentences]. *)
Definition mask_sent (fuel : nat) (sent : pystr) (a : Acc) : M Acc :=
  if in_alphabet sent then
    ret (mkAcc (masked_sentences a ++ [sent]) (answer a))
  else
    u <- random ;;
    if Qltb u (sentence_mask_p p) then
      ret (mkAcc (masked_sentences a ++ [mask]) (answer a ++ [sent]))
    else
      st <- while_loop fuel (tokenize tokenizer sent) (mkCursor 0 a) ;;
      ret (acc st).

Fixpoint mask_sentences (fuel : nat) (sentences : list pystr) (a : Acc)
  : M Acc :=
  match sentences with
  | [] => ret a
  | sent :: rest =>
      a' <- mask_sent fuel sent a ;;
      mask_sentences fuel rest a'
  end.

(** The pair [(masked_text, answer_text)] built from the two lists. *)
Definition render (a : Acc) : pystr * pystr :=
  (join [] (masked_sentences a), join mask (answer a) ++ mask).

Definition mask_article (fuel : nat) (article : pystr)
  : M (pystr * pystr) :=
  let article := truncate tokenizer article in
  u <- random ;;
  if Qltb u (document_mask_p p) then
    ret (mask, article ++ mask)
  else
    a <- mask_sentences fuel (sentence_split article) (mkAcc [] []) ;;
    ret (render a).
End MaskArticle.

(** ** Concrete collaborators used in the examples *)

(** A tokenizer that makes one token of every character, with the
    marker [[MASK]] and a limit of 400 tokens. *)
Definition char_tokenizer : Tokenizer :=
  mkTokenizer (map (fun c => [c])) 400 [91; 77; 65; 83; 75; 93]%N.

(** A generator whose every raw draw is [k]. *)
Definition const_random (k : N) : Random := mkRandom (fun _ => k) 0.

(** A generator that replays [ks] and then draws 0 for ever. *)
Definition replay (ks : list N) : Random :=
  mkRandom (fun i => nth i ks 0%N) 0.

(** The text of a result, when there is one. *)
Definition value {A} (r : result (A * Random)) : result A :=
  match r with
  | Ok (a, _) => Ok a
  | Raise e => Raise e
  | OutOfFuel => OutOfFuel
  end.

(** ** Derived notions used in the statements *)

(** The float [random()] returns from generator state [r], and the state
    it leaves. *)
Definition uniform (r : Random) : Q :=
  Qmake (Z.of_N (tape r (consumed r)) mod Zpos two53) two53.

Definition advance (n : nat) (r : Random) : Random :=
  mkRandom (tape r) (n + consumed r).

(** [m] is a prefix of [s]. *)
Fixpoint starts_with (m s : pystr) : bool :=
  match m, s with
  | [], _ => true
  | a :: m', b :: s' => char_eqb a b && starts_with m' s'
  | _ :: _, [] => false
  end.

(** [s.endswith(m)] *)
Definition ends_with (s m : pystr) : bool :=
  starts_with (rev m) (rev s).

(** The number of positions of [s] at which an occurrence of [m] starts. *)
Fixpoint occurrences (m s : pystr) : nat :=
  match s with
  | [] => 0
  | _ :: s' => (if starts_with m s then 1 else 0) + occurrences m s'
  end.

(** A content segment is a split segment that is not in [alphabet]. *)
Definition is_content (sent : pystr) : bool := negb (in_alphabet sent).

Definition delimiter_free (s : pystr) : Prop :=
  Forall (fun c => is_delim c = false) s.

(** The longest tokenized segment of the truncated article: a bound on
    the iterations any of the [while] loops needs when the cursor moves
    forward. *)
Definition token_bound (tokenizer : Tokenizer) (article : pystr) : nat :=
  list_max (map (fun sent => length (tokenize tokenizer sent))
                (sentence_split (truncate tokenizer article))).

(** The lists [a] holds, written after those of [a0]. *)
Definition extend (a0 a : Acc) : Acc :=
  mkAcc (masked_sentences a0 ++ masked_sentences a) (answer a0 ++ answer a).

Definition empty_acc : Acc := mkAcc [] [].

(** The outcome of a computation, with its value transformed. *)
Definition map_result {A B} (f : A -> B) (r : result (A * Random))
  : result (B * Random) :=
  match r with
  | Ok (a, r') => Ok (f a, r')
  | Raise e => Raise e
  | OutOfFuel => OutOfFuel
  end.

(** The outcome is not an exception. *)
Definition no_raise {A} (r : result A) : Prop :=
  match r with
  | Raise _ => False
  | _ => True
  end.

(** ** Reading the answers back into the masked list *)

(** The masked list in which every entry equal to the marker is replaced
    by the next answer; [None] when the answers and the markers do not
    match in number. *)
Fixpoint fill (mask : pystr) (ms ans : list pystr)
  : option (list pystr) :=
  match ms with
  | [] => match ans with
          | [] => Some []
          | _ :: _ => None
          end
  | m :: ms' =>
      if str_eqb m mask then
        match ans with
        | a :: ans' => option_map (cons a) (fill mask ms' ans')
        | [] => None
        end
      else option_map (cons m) (fill mask ms' ans)
  end.

(** An outcome that is not a result: an exception or an exhausted bound. *)
Definition stop {A} (e : option exn) : result A :=
  match e with
  | Some x => Raise x
  | None => OutOfFuel
  end.

(** A content segment that the tokenizer does not tokenize to nothing. *)
Definition has_words (tokenizer : Tokenizer) (sent : pystr) : Prop :=
  in_alphabet sent = false /\ tokenize tokenizer sent <> [].

(** ** The batch pass of the script *)

(** A row of the dataset: a [dict] from field names to texts, in
    insertion order. *)
Definition pydict := list (string * pystr).

(** [d[k]], [None] standing for [KeyError]. *)
Fixpoint dict_get (k : string) (d : pydict) : option pystr :=
  match d with
  | [] => None
  | (k', v) :: d' => if String.eqb k k' then Some v else dict_get k d'
  end.

(** [d[k] = v]: the value of a present key is replaced where it stands, a
    new key is added at the end. *)
Fixpoint dict_set (k : string) (v : pystr) (d : pydict) : pydict :=
  match d with
  | [] => [(k, v)]
  | (k', v') :: d' =>
      if String.eqb k k' then (k, v) :: d' else (k', v') :: dict_set k v d'
  end.

Inductive error :=
| KeyError (key : string)
| Raised (e : exn).

(** How a pass ends: with a value and the state of the generator, with an
    exception, or without having ended within the bound. *)
Inductive run (A : Type) :=
| Returned (a : A) (r : Random)
| Crashed (e : error)
| Unfinished.
Arguments Returned {A} a r.
Arguments Crashed {A} e.
Arguments Unfinished {A}.

(** [data['masked_article'], data['answer'] =
       mask_article(tokenizer=tokenizer, article=data['article'])] *)
Definition mask_row (tokenizer : Tokenizer) (fuel : nat) (data : pydict)
           (r : Random) : run pydict :=
  match dict_get "article" data with
  | None => Crashed (KeyError "article")
  | Some article =>
      match mask_article tokenizer default_params fuel article r with
      | Ok ((masked_article, ans), r') =>
          Returned (dict_set "answer" ans
                      (dict_set "masked_article" masked_article data)) r'
      | Raise e => Crashed (Raised e)
      | OutOfFuel => Unfinished
      end
  end.

(** [for data in dataset[split]: ...; result.append(data)] *)
Fixpoint mask_rows (tokenizer : Tokenizer) (fuel : nat)
         (rows result : list pydict) (r : Random) : run (list pydict) :=
  match rows with
  | [] => Returned result r
  | data :: rest =>
      match mask_row tokenizer fuel data r with
      | Returned data' r' =>
          mask_rows tokenizer fuel rest (result ++ [data']) r'
      | Crashed e => Crashed e
      | Unfinished => Unfinished
      end
  end.

(** The two splits of the dataset. *)
Record Dataset := mkDataset {
  train : list pydict;
  test : list pydict
}.

(** The files [pickle.dump] has written, oldest first. *)
Definition Disk := list (string * list pydict).

(** The script: the train split is masked and written, then the test
    split, with one generator for both. The files written so far are
    returned with the way the script ends. *)
Definition main (tokenizer : Tokenizer) (fuel : nat) (dataset : Dataset)
           (r : Random) : Disk * run unit :=
  match mask_rows tokenizer fuel (train dataset) [] r with
  | Returned train_data_result r1 =>
      let disk := [("dataset/mlm_train2.pk"%string, train_data_result)] in
      match mask_rows tokenizer fuel (test dataset) [] r1 with
      | Returned test_result r2 =>
          (disk ++ [("dataset/mlm_test2.pk"%string, test_result)],
           Returned tt r2)
      | Crashed e => (disk, Crashed e)
      | Unfinished => (disk, Unfinished)
      end
  | Crashed e => ([], Crashed e)
  | Unfinished => ([], Unfinished)
  end.

(** [data'] is the row [data] after the two fields have been written
    from a call of [mask_article] on its article. *)
Definition masked_row_of (tokenizer : Tokenizer) (fuel : nat)
           (data data' : pydict) : Prop :=
  exists article masked_text answer_text r0 r1,
    dict_get "article" data = Some article
    /\ mask_article tokenizer default_params fuel article r0
       = Ok ((masked_text, answer_text), r1)
    /\ dict_get "masked_article" data' = Some masked_text
    /\ dict_get "answer" data' = Some answer_text
    /\ (forall k, k <> "masked_article"%string -> k <> "answer"%string ->
                  dict_get k data' = dict_get k data).

(** ** The warm-up schedule of [train_script.py] *)

(** [a // b] on integers, [None] standing for [ZeroDivisionError]. *)
Definition floordiv (a b : Z) : option Z :=
  if b =? 0 then None else Some (a / b).

(** [total_step] of [create_warm_up_function]. *)
Definition total_step (epoch_num dataset_size batch_size accumulate_step : Z)
  : option Z :=
  option_map (Z.mul epoch_num)
             (floordiv dataset_size (batch_size * accumulate_step)).



(** ** The random source *)

Lemma random_eq (r : Random) : random r = Ok (uniform r, advance 1 r).
Proof. reflexivity. Qed.

Lemma uniform_lt_1 (r : Random) : Qltb (uniform r) 1 = true.
Proof.
  unfold Qltb, uniform; cbn [Qnum Qden].
  apply Z.ltb_lt.
  pose proof (Z.mod_pos_bound (Z.of_N (tape r (consumed r))) (Zpos two53)
                ltac:(reflexivity)) as H.
  lia.
Qed.

Lemma uniform_ge_0 (r : Random) : Qltb (uniform r) 0 = false.
Proof.
  unfold Qltb, uniform; cbn [Qnum Qden].
  apply Z.ltb_ge.
  pose proof (Z.mod_pos_bound (Z.of_N (tape r (consumed r))) (Zpos two53)
                ltac:(reflexivity)) as H.
  lia.
Qed.

Lemma randrange_ok (start stop : Z) (r : Random) :
  start < stop ->
  exists n, randrange start stop r = Ok (n, advance 1 r)
            /\ start <= n < stop.
Proof.
  intros Hlt. unfold randrange.
  assert (Hw : (0 <? stop - start) = true) by (apply Z.ltb_lt; lia).
  rewrite Hw.
  exists (start + Z.of_N (tape r (consumed r)) mod (stop - start)).
  split; [reflexivity|].
  pose proof (Z.mod_pos_bound (Z.of_N (tape r (consumed r))) (stop - start)
                ltac:(lia)) as H.
  lia.
Qed.

Lemma randrange_inv (start stop n : Z) (r r' : Random) :
  randrange start stop r = Ok (n, r') ->
  start <= n < stop /\ r' = advance 1 r.
Proof.
  unfold randrange. destruct (0 <? stop - start) eqn:Hw.
  - apply Z.ltb_lt in Hw. intros H. cbv [bind next_draw ret] in H.
    inversion H; subst; clear H. split; [|reflexivity].
    pose proof (Z.mod_pos_bound (Z.of_N (tape r (consumed r))) (stop - start)
                  ltac:(lia)) as H.
    lia.
  - discriminate.
Qed.

Lemma advance_advance (n m : nat) (r : Random) :
  advance n (advance m r) = advance (n + m) r.
Proof. unfold advance; cbn. f_equal. lia. Qed.

(** ** Strings *)

Lemma join_nil (xs : list pystr) : join [] xs = concat xs.
Proof.
  induction xs as [|x xs IH]; [reflexivity|].
  destruct xs as [|y ys].
  - cbn. now rewrite app_nil_r.
  - change (join [] (x :: y :: ys)) with (x ++ [] ++ join [] (y :: ys)).
    rewrite IH. reflexivity.
Qed.

Lemma join_snoc (sep : pystr) (xs : list pystr) (x y : pystr) :
  join sep ((xs ++ [x]) ++ [y]) = join sep (xs ++ [x]) ++ sep ++ y.
Proof.
  induction xs as [|z zs IH]; [reflexivity|].
  cbn [app].
  destruct (zs ++ [x]) as [|w ws] eqn:E.
  - destruct zs; discriminate.
  - cbn [app] in *.
    change (join sep (z :: w :: ws ++ [y]))
      with (z ++ sep ++ join sep (w :: ws ++ [y])).
    change (join sep (z :: w :: ws)) with (z ++ sep ++ join sep (w :: ws)).
    rewrite IH, !app_assoc. reflexivity.
Qed.

Lemma char_eqb_eq (a b : char) : char_eqb a b = true <-> a = b.
Proof. apply N.eqb_eq. Qed.

Lemma starts_with_app (m t : pystr) : starts_with m (m ++ t) = true.
Proof.
  induction m as [|a m IH]; [reflexivity|].
  cbn. rewrite IH. unfold char_eqb. now rewrite N.eqb_refl.
Qed.

Lemma starts_with_short (m t : pystr) :
  (length t < length m)%nat -> starts_with m t = false.
Proof.
  revert t. induction m as [|a m IH]; intros t Hlen; [cbn in Hlen; lia|].
  destruct t as [|b t]; [reflexivity|].
  cbn in *. rewrite IH by lia. apply andb_false_r.
Qed.

Lemma ends_with_app (s m : pystr) : ends_with (s ++ m) m = true.
Proof. unfold ends_with. rewrite rev_app_distr. apply starts_with_app. Qed.

(** ** Delimiters and the split *)

Lemma in_alphabet_singleton (c : char) : in_alphabet [c] = is_delim c.
Proof.
  unfold in_alphabet, is_delim, alphabet.
  cbn [existsb str_eqb].
  rewrite !andb_true_r.
  destruct (char_eqb c 44%N); [now rewrite !orb_true_r|].
  reflexivity.
Qed.

Lemma in_alphabet_nil : in_alphabet [] = false.
Proof. reflexivity. Qed.

Lemma in_alphabet_long (a b : char) (s : pystr) :
  in_alphabet (a :: b :: s) = false.
Proof.
  unfold in_alphabet, alphabet. cbn [existsb str_eqb].
  now rewrite !andb_false_r.
Qed.

Lemma in_alphabet_inv (sent : pystr) :
  in_alphabet sent = true -> exists c, sent = [c] /\ is_delim c = true.
Proof.
  destruct sent as [|a [|b s]]; intros H.
  - discriminate.
  - exists a. now rewrite <- in_alphabet_singleton.
  - now rewrite in_alphabet_long in H.
Qed.

Lemma delimiter_free_content (s : pystr) :
  delimiter_free s -> in_alphabet s = false.
Proof.
  intros Hs. destruct (in_alphabet s) eqn:E; [|reflexivity].
  apply in_alphabet_inv in E. destruct E as (c & -> & Hc).
  inversion Hs; subst. congruence.
Qed.

Lemma delimiter_free_rev (s : pystr) :
  delimiter_free s -> delimiter_free (rev s).
Proof. apply Forall_rev. Qed.

Lemma split_from_concat (cur s : pystr) :
  concat (split_from cur s) = rev cur ++ s.
Proof.
  revert cur. induction s as [|c s IH]; intros cur; cbn [split_from].
  - cbn. now rewrite app_nil_r.
  - destruct (is_delim c).
    + cbn [concat]. rewrite IH. reflexivity.
    + rewrite IH. cbn [rev]. now rewrite <- app_assoc.
Qed.

Lemma split_from_delims (cur s : pystr) :
  delimiter_free cur ->
  filter in_alphabet (split_from cur s)
  = map (fun c => [c]) (filter is_delim s).
Proof.
  revert cur. induction s as [|c s IH]; intros cur Hcur; cbn [split_from].
  - cbn [filter map].
    now rewrite (delimiter_free_content _ (delimiter_free_rev _ Hcur)).
  - destruct (is_delim c) eqn:Hc.
    + cbn [filter]. rewrite Hc.
      rewrite (delimiter_free_content _ (delimiter_free_rev _ Hcur)).
      rewrite in_alphabet_singleton, Hc. cbn [map]. f_equal.
      apply IH. constructor.
    + cbn [filter]. rewrite Hc. apply IH. now constructor.
Qed.

Lemma split_from_segments (cur s : pystr) :
  delimiter_free cur ->
  Forall (fun sent => if in_alphabet sent
                      then exists c, sent = [c] /\ is_delim c = true
                      else delimiter_free sent)
         (split_from cur s).
Proof.
  revert cur. induction s as [|c s IH]; intros cur Hcur; cbn [split_from].
  - constructor; [|constructor].
    rewrite (delimiter_free_content _ (delimiter_free_rev _ Hcur)).
    now apply delimiter_free_rev.
  - destruct (is_delim c) eqn:Hc.
    + constructor; [|constructor].
      * rewrite (delimiter_free_content _ (delimiter_free_rev _ Hcur)).
        now apply delimiter_free_rev.
      * rewrite in_alphabet_singleton, Hc. now exists c.
      * apply IH. constructor.
    + apply IH. now constructor.
Qed.

(** Splitting distributes over a delimiter: the fragments on its two
    sides are split separately and the delimiter stands between them. *)
Lemma split_from_app (cur s t : pystr) (d : char) :
  is_delim d = true ->
  split_from cur (s ++ d :: t) = split_from cur s ++ [d] :: split_from [] t.
Proof.
  intros Hd. revert cur. induction s as [|c s IH]; intros cur.
  - cbn [app split_from]. now rewrite Hd.
  - cbn [app split_from]. destruct (is_delim c).
    + now rewrite IH.
    + apply IH.
Qed.

Lemma sentence_split_app (s t : pystr) (d : char) :
  is_delim d = true ->
  sentence_split (s ++ d :: t)
  = sentence_split s ++ [d] :: sentence_split t.
Proof. apply split_from_app. Qed.

(** The split always ends with a content fragment. *)
Lemma split_from_last (cur s : pystr) :
  delimiter_free cur ->
  exists segs frag,
    split_from cur s = segs ++ [frag] /\ in_alphabet frag = false.
Proof.
  revert cur. induction s as [|c s IH]; intros cur Hcur; cbn [split_from].
  - exists [], (rev cur). split; [reflexivity|].
    apply delimiter_free_content. now apply delimiter_free_rev.
  - destruct (is_delim c) eqn:Hc.
    + destruct (IH [] ltac:(constructor)) as (segs & frag & E & Hf).
      exists (rev cur :: [c] :: segs), frag. now rewrite E.
    + apply IH. now constructor.
Qed.

(** ** Occurrences of a delimiter-free marker *)

Lemma starts_with_across (t m r : pystr) (d : char) :
  (length t < length m)%nat -> delimiter_free m -> is_delim d = true ->
  starts_with m (t ++ d :: r) = false.
Proof.
  revert m. induction t as [|b t IH]; intros m Hlen Hm Hd.
  - destruct m as [|a m]; [cbn in Hlen; lia|].
    cbn. inversion Hm as [|? ? Ha Hm']; subst.
    destruct (char_eqb a d) eqn:E; [|reflexivity].
    apply char_eqb_eq in E. congruence.
  - destruct m as [|a m]; [cbn in Hlen; lia|].
    cbn in *. inversion Hm; subst.
    rewrite IH by (auto; lia). apply andb_false_r.
Qed.

Lemma occurrences_across (t m r : pystr) (d : char) :
  (length t < length m)%nat -> delimiter_free m -> is_delim d = true ->
  occurrences m (t ++ d :: r) = occurrences m r.
Proof.
  intros Hlen Hm Hd. induction t as [|b t IH].
  - pose proof (starts_with_across [] m r d Hlen Hm Hd) as H.
    cbn [app] in H. cbn [app occurrences]. now rewrite H.
  - change ((b :: t) ++ d :: r) with (b :: (t ++ d :: r)).
    cbn [occurrences].
    change (b :: (t ++ d :: r)) with ((b :: t) ++ d :: r).
    rewrite (starts_with_across (b :: t) m r d Hlen Hm Hd).
    apply IH. cbn in Hlen. lia.
Qed.

Lemma occurrences_short (m t : pystr) :
  (length t < length m)%nat -> occurrences m t = 0%nat.
Proof.
  induction t as [|b t IH]; intros Hlen; [reflexivity|].
  cbn [occurrences]. rewrite starts_with_short by exact Hlen.
  apply IH. cbn in Hlen. lia.
Qed.

Lemma occurrences_self (m : pystr) : m <> [] -> occurrences m m = 1%nat.
Proof.
  intros Hm. destruct m as [|a m]; [congruence|].
  cbn [occurrences].
  pose proof (starts_with_app (a :: m) []) as H.
  rewrite app_nil_r in H. rewrite H.
  rewrite occurrences_short by (cbn; lia). reflexivity.
Qed.

Lemma occurrences_block (m r : pystr) (d : char) :
  m <> [] -> delimiter_free m -> is_delim d = true ->
  occurrences m (m ++ d :: r) = S (occurrences m r).
Proof.
  intros Hne Hm Hd. destruct m as [|a m]; [congruence|].
  change ((a :: m) ++ d :: r) with (a :: (m ++ d :: r)).
  cbn [occurrences].
  change (a :: (m ++ d :: r)) with ((a :: m) ++ d :: r).
  rewrite starts_with_app.
  rewrite occurrences_across by (auto; cbn; lia). reflexivity.
Qed.

(** The text in which every content segment of a split is replaced by
    the marker [m] has one occurrence of [m] per content segment. *)
Lemma occurrences_masked_split (m cur s : pystr) :
  m <> [] -> delimiter_free m -> delimiter_free cur ->
  occurrences m
    (concat (map (fun x => if in_alphabet x then x else m)
                 (split_from cur s)))
  = length (filter is_content (split_from cur s)).
Proof.
  intros Hne Hm. revert cur.
  induction s as [|c s IH]; intros cur Hcur; cbn [split_from].
  - cbn [map filter concat]. unfold is_content.
    rewrite (delimiter_free_content _ (delimiter_free_rev _ Hcur)).
    cbn [negb length]. rewrite app_nil_r. now apply occurrences_self.
  - destruct (is_delim c) eqn:Hc.
    + cbn [map filter concat]. unfold is_content.
      rewrite (delimiter_free_content _ (delimiter_free_rev _ Hcur)).
      rewrite in_alphabet_singleton, Hc. cbn [negb length app].
      rewrite occurrences_block by assumption. f_equal.
      apply (IH []). constructor.
    + apply IH. now constructor.
Qed.

(** ** The loop over the segments *)

Lemma advance_0 (r : Random) : advance 0 r = r.
Proof. now destruct r. Qed.

Lemma mask_sent_delimiter tok p fuel sent a r :
  in_alphabet sent = true ->
  mask_sent tok p fuel sent a r
  = Ok (mkAcc (masked_sentences a ++ [sent]) (answer a), r).
Proof. unfold mask_sent. now intros ->. Qed.

Lemma mask_sent_sentence tok p fuel sent a r :
  in_alphabet sent = false ->
  Qltb (uniform r) (sentence_mask_p p) = true ->
  mask_sent tok p fuel sent a r
  = Ok (mkAcc (masked_sentences a ++ [mask_token tok]) (answer a ++ [sent]),
        advance 1 r).
Proof.
  unfold mask_sent. intros -> H. unfold bind.
  now rewrite random_eq, H.
Qed.

Lemma mask_sent_words tok p fuel sent a r :
  in_alphabet sent = false ->
  Qltb (uniform r) (sentence_mask_p p) = false ->
  mask_sent tok p fuel sent a r
  = (st <- while_loop tok p fuel (tokenize tok sent) (mkCursor 0 a) ;;
     ret (acc st)) (advance 1 r).
Proof.
  unfold mask_sent. intros -> H. unfold bind at 1.
  now rewrite random_eq, H.
Qed.

Lemma mask_sentences_app tok p fuel xs ys a r :
  mask_sentences tok p fuel (xs ++ ys) a r
  = (a' <- mask_sentences tok p fuel xs a ;;
     mask_sentences tok p fuel ys a') r.
Proof.
  revert a r. induction xs as [|x xs IH]; intros a r; [reflexivity|].
  cbn [app mask_sentences]. unfold bind.
  destruct (mask_sent tok p fuel x a r) as [[a' r']| |]; [|reflexivity..].
  now rewrite IH.
Qed.

(** With [sentence_mask_p = 1] every content segment is masked whole. *)
Lemma mask_sentences_all_masked tok p fuel sents a r :
  sentence_mask_p p = 1%Q ->
  mask_sentences tok p fuel sents a r
  = Ok (mkAcc (masked_sentences a
               ++ map (fun s => if in_alphabet s then s else mask_token tok)
                      sents)
              (answer a ++ filter is_content sents),
        advance (length (filter is_content sents)) r).
Proof.
  intros Hp. revert a r.
  induction sents as [|s sents IH]; intros a r.
  - cbn. rewrite !app_nil_r, advance_0. now destruct a.
  - cbn [mask_sentences map filter]. unfold bind, is_content.
    destruct (in_alphabet s) eqn:Hs.
    + rewrite mask_sent_delimiter by assumption.
      rewrite IH. cbn [masked_sentences answer negb].
      now rewrite <- app_assoc.
    + rewrite mask_sent_sentence
        by (try assumption; rewrite Hp; apply uniform_lt_1).
      rewrite IH. cbn [masked_sentences answer negb length].
      rewrite <- !app_assoc, advance_advance. cbn [app].
      now rewrite Nat.add_1_r.
Qed.

Lemma mask_article_all_masked tok wp np mn mx fuel article r :
  mask_article tok (mkParams 0 1 wp np mn mx) fuel article r
  = Ok ((join [] (map (fun s => if in_alphabet s then s else mask_token tok)
                      (sentence_split (truncate tok article))),
         join (mask_token tok)
              (filter is_content (sentence_split (truncate tok article)))
         ++ mask_token tok),
        advance (S (length (filter is_content
                              (sentence_split (truncate tok article))))) r).
Proof.
  unfold mask_article, bind. rewrite random_eq.
  cbn [document_mask_p]. rewrite uniform_ge_0.
  rewrite mask_sentences_all_masked by reflexivity.
  unfold render. cbn [masked_sentences answer app].
  rewrite advance_advance. now rewrite Nat.add_1_r.
Qed.

(** ** The claims on the split and on the certain tiers *)

(** C2: splitting the truncated article keeps every delimiter as a
    segment of its own, in order, every other segment being free of
    delimiters, and joining the whole split sequence gives the truncated
    article back. *)
Theorem split_reconstructs_article (tok : Tokenizer) (article : pystr) :
  let text := truncate tok article in
  join [] (sentence_split text) = text
  /\ filter in_alphabet (sentence_split text)
     = map (fun c => [c]) (filter is_delim text)
  /\ Forall (fun sent => if in_alphabet sent
                         then exists c, sent = [c] /\ is_delim c = true
                         else delimiter_free sent)
            (sentence_split text).
Proof.
  intros text. unfold sentence_split. repeat split.
  - rewrite join_nil. apply split_from_concat.
  - apply split_from_delims. constructor.
  - apply split_from_segments. constructor.
Qed.

(** C3: with [document_mask_p = 1] the masked text is the marker and the
    answer is the truncated article followed by the marker, whatever the
    other parameters; a single draw of the random source is consumed. *)
Theorem document_mask_certain (tok : Tokenizer) (sp wp np : Q) (mn mx : Z)
        (fuel : nat) (article : pystr) (r : Random) :
  mask_article tok (mkParams 1 sp wp np mn mx) fuel article r
  = Ok ((mask_token tok, truncate tok article ++ mask_token tok),
        advance 1 r).
Proof.
  unfold mask_article, bind. rewrite random_eq.
  cbn [document_mask_p]. now rewrite uniform_lt_1.
Qed.

(** C4: with [sentence_mask_p = 1] and [document_mask_p = 0] the masked
    text is the split sequence in which every content segment is replaced
    by one marker; the answer list holds the content segments; and, the
    marker being a non-empty string without delimiter characters, it
    occurs in the masked text once per content segment. *)
Theorem sentence_mask_certain (tok : Tokenizer) (wp np : Q) (mn mx : Z)
        (fuel : nat) (article : pystr) (r : Random) :
  let sents := sentence_split (truncate tok article) in
  exists masked_text answer_text r',
    mask_article tok (mkParams 0 1 wp np mn mx) fuel article r
    = Ok ((masked_text, answer_text), r')
    /\ masked_text
       = join [] (map (fun s => if in_alphabet s then s else mask_token tok)
                      sents)
    /\ answer_text
       = join (mask_token tok) (filter is_content sents) ++ mask_token tok
    /\ (mask_token tok <> [] -> delimiter_free (mask_token tok) ->
        occurrences (mask_token tok) masked_text
        = length (filter is_content sents)).
Proof.
  intros sents. rewrite mask_article_all_masked. fold sents.
  do 3 eexists. split; [reflexivity|]. split; [reflexivity|].
  split; [reflexivity|].
  intros Hne Hfree. rewrite join_nil.
  apply occurrences_masked_split; [assumption..|constructor].
Qed.

Lemma sentence_mask_certain_witness :
  let article := [97; 44; 98; 12290]%N in
  (mask_token char_tokenizer <> []
   /\ delimiter_free (mask_token char_tokenizer))
  /\ exists masked_text answer_text r',
       mask_article char_tokenizer (mkParams 0 1 0 0 2 6) 0 article
                    (const_random 0)
       = Ok ((masked_text, answer_text), r')
       /\ occurrences (mask_token char_tokenizer) masked_text = 3%nat.
Proof.
  intros article.
  assert (h1 : mask_token char_tokenizer <> []) by discriminate.
  assert (h2 : delimiter_free (mask_token char_tokenizer))
    by (repeat constructor).
  split; [exact (conj h1 h2)|].
  destruct (sentence_mask_certain char_tokenizer 0 0 2 6 0 article
              (const_random 0))
    as (mt & at' & r' & E & _ & _ & Hocc).
  exists mt, at', r'. split; [exact E|]. exact (Hocc h1 h2).
Defined.

(** ** Slicing and indexing *)

Lemma py_slice_forward {A} (xs : list A) (i n : Z) :
  0 <= i -> 0 <= n ->
  py_slice xs i (i + n) = firstn (Z.to_nat n) (skipn (Z.to_nat i) xs).
Proof.
  intros Hi Hn. unfold py_slice, slice_bound.
  assert (E1 : (i <? 0) = false) by (apply Z.ltb_ge; lia).
  assert (E2 : (i + n <? 0) = false) by (apply Z.ltb_ge; lia).
  rewrite E1, E2. set (len := Z.of_nat (length xs)).
  destruct (Z_le_gt_dec (i + n) len) as [Hin|Hin].
  - rewrite (Z.min_l (i + n)), (Z.min_l i) by lia.
    now replace (i + n - i) with n by lia.
  - rewrite (Z.min_r (i + n)) by lia.
    destruct (Z_le_gt_dec i len) as [Hil|Hil].
    + rewrite (Z.min_l i) by lia.
      rewrite !firstn_all2; [reflexivity| |];
        rewrite length_skipn; subst len; lia.
    + rewrite (Z.min_r i) by lia.
      rewrite !skipn_all2 by (subst len; lia).
      now rewrite !firstn_nil.
Qed.

(** A forward slice that reaches past the end holds what remains. *)
Lemma py_slice_past_end {A} (xs : list A) (i n : Z) :
  0 <= i -> Z.of_nat (length xs) <= i + n ->
  py_slice xs i (i + n) = skipn (Z.to_nat i) xs.
Proof.
  intros Hi Hn.
  destruct (Z_le_gt_dec 0 n) as [Hn0|Hn0].
  - rewrite py_slice_forward by lia.
    apply firstn_all2. rewrite length_skipn. lia.
  - rewrite skipn_all2 by lia.
    unfold py_slice, slice_bound.
    assert (E1 : (i <? 0) = false) by (apply Z.ltb_ge; lia).
    assert (E2 : (i + n <? 0) = false) by (apply Z.ltb_ge; lia).
    rewrite E1, E2, !Z.min_r by lia.
    now rewrite Z.sub_diag.
Qed.

Lemma py_index_ok {A} (xs : list A) (i : Z) (r : Random) :
  0 <= i < Z.of_nat (length xs) ->
  exists x, py_index xs i r = Ok (x, r)
            /\ nth_error xs (Z.to_nat i) = Some x.
Proof.
  intros Hi. unfold py_index.
  assert (E1 : (i <? 0) = false) by (apply Z.ltb_ge; lia).
  assert (E2 : (0 <=? i) = true) by (apply Z.leb_le; lia).
  assert (E3 : (i <? Z.of_nat (length xs)) = true) by (apply Z.ltb_lt; lia).
  rewrite E1, E2, E3. cbn [andb].
  destruct (nth_error xs (Z.to_nat i)) as [x|] eqn:E.
  - now exists x.
  - apply nth_error_None in E. lia.
Qed.

Lemma skipn_nth_error {A} (xs : list A) (k : nat) (x : A) :
  nth_error xs k = Some x -> skipn k xs = x :: skipn (S k) xs.
Proof.
  revert k. induction xs as [|y xs IH]; intros [|k] H; try discriminate.
  - cbn in H. now inversion H.
  - cbn in H. now apply IH.
Qed.

(** ** The word-level loop *)

Section WordLoop.
Variable tok : Tokenizer.
Variable p : Params.
Variable tokens : list pystr.

Let len := Z.of_nat (length tokens).

Lemma loop_body_ngram (st : Cursor) (r : Random) :
  Qltb (uniform r) (word_mask_p p) = true ->
  Qltb (uniform (advance 1 r)) (ngram_mask_p p) = true ->
  loop_body tok p tokens st r
  = (n <- randrange (min_ngram_length p) (max_ngram_length p) ;;
     ret (mkCursor (word_idx st + n)
            (mkAcc (masked_sentences (acc st) ++ [mask_token tok])
                   (answer (acc st)
                    ++ [join [] (py_slice tokens (word_idx st)
                                          (word_idx st + n))]))))
      (advance 2 r).
Proof.
  intros Hw Hn. unfold loop_body. unfold bind at 1.
  rewrite random_eq, Hw. unfold bind at 1.
  now rewrite random_eq, Hn.
Qed.

Lemma loop_body_single (st : Cursor) (r : Random) :
  Qltb (uniform r) (word_mask_p p) = true ->
  Qltb (uniform (advance 1 r)) (ngram_mask_p p) = false ->
  loop_body tok p tokens st r
  = (t <- py_index tokens (word_idx st) ;;
     ret (mkCursor (word_idx st + 1)
            (mkAcc (masked_sentences (acc st) ++ [mask_token tok])
                   (answer (acc st) ++ [t]))))
      (advance 2 r).
Proof.
  intros Hw Hn. unfold loop_body. unfold bind at 1.
  rewrite random_eq, Hw. unfold bind at 1.
  now rewrite random_eq, Hn.
Qed.

Lemma loop_body_keep (st : Cursor) (r : Random) :
  Qltb (uniform r) (word_mask_p p) = false ->
  loop_body tok p tokens st r
  = (t <- py_index tokens (word_idx st) ;;
     ret (mkCursor (word_idx st + 1)
            (mkAcc (masked_sentences (acc st) ++ [t])
                   (answer (acc st)))))
      (advance 1 r).
Proof.
  intros Hw. unfold loop_body. unfold bind at 1.
  now rewrite random_eq, Hw.
Qed.

(** Under a well-formed range an iteration returns, and moves the
    cursor forward without leaving the non-negative indices. *)
Lemma loop_body_advances (st : Cursor) (r : Random) :
  0 < min_ngram_length p < max_ngram_length p ->
  0 <= word_idx st < len ->
  exists st' r',
    loop_body tok p tokens st r = Ok (st', r')
    /\ word_idx st + 1 <= word_idx st'.
Proof.
  intros Hrange Hi.
  destruct (Qltb (uniform r) (word_mask_p p)) eqn:Hw.
  - destruct (Qltb (uniform (advance 1 r)) (ngram_mask_p p)) eqn:Hn.
    + rewrite loop_body_ngram by assumption.
      destruct (randrange_ok (min_ngram_length p) (max_ngram_length p)
                  (advance 2 r) ltac:(lia)) as (n & E & Hn').
      unfold bind. rewrite E. do 2 eexists. split; [reflexivity|].
      cbn [word_idx]. lia.
    + rewrite loop_body_single by assumption.
      destruct (py_index_ok tokens (word_idx st) (advance 2 r) Hi)
        as (t & E & _).
      unfold bind. rewrite E. do 2 eexists. split; [reflexivity|].
      cbn [word_idx]. lia.
  - rewrite loop_body_keep by assumption.
    destruct (py_index_ok tokens (word_idx st) (advance 1 r) Hi)
      as (t & E & _).
    unfold bind. rewrite E. do 2 eexists. split; [reflexivity|].
    cbn [word_idx]. lia.
Qed.

Lemma while_loop_exit (fuel : nat) (st : Cursor) (r : Random) :
  len <= word_idx st -> while_loop tok p fuel tokens st r = Ok (st, r).
Proof.
  intros H. destruct fuel; cbn [while_loop]; fold len;
    (replace (word_idx st <? len) with false
      by (symmetry; apply Z.ltb_ge; lia)); reflexivity.
Qed.

Lemma while_loop_step (fuel : nat) (st : Cursor) (r : Random) :
  word_idx st < len ->
  while_loop tok p (S fuel) tokens st r
  = (st' <- loop_body tok p tokens st ;;
     while_loop tok p fuel tokens st') r.
Proof.
  intros H. cbn [while_loop]. fold len.
  now replace (word_idx st <? len) with true
    by (symmetry; apply Z.ltb_lt; lia).
Qed.

Lemma while_loop_stall (st : Cursor) (r : Random) :
  word_idx st < len -> while_loop tok p 0 tokens st r = OutOfFuel.
Proof.
  intros H. cbn [while_loop]. fold len.
  now replace (word_idx st <? len) with true
    by (symmetry; apply Z.ltb_lt; lia).
Qed.

(** The loop returns within [len - word_idx] iterations. *)
Lemma while_loop_returns (fuel : nat) (st : Cursor) (r : Random) :
  0 < min_ngram_length p < max_ngram_length p ->
  0 <= word_idx st ->
  (Z.to_nat (len - word_idx st) <= fuel)%nat ->
  exists st' r', while_loop tok p fuel tokens st r = Ok (st', r').
Proof.
  intros Hrange. revert st r.
  induction fuel as [|fuel IH]; intros st r Hi Hfuel.
  - rewrite while_loop_exit by lia. now do 2 eexists.
  - destruct (Z_lt_le_dec (word_idx st) len) as [Hlt|Hge].
    + rewrite while_loop_step by assumption.
      destruct (loop_body_advances st r Hrange ltac:(lia))
        as (st1 & r1 & E & Hadv).
      unfold bind. rewrite E. apply IH; lia.
    + rewrite while_loop_exit by lia. now do 2 eexists.
Qed.

(** Whatever the bound on the iterations, the loop raises nothing. *)
Lemma while_loop_no_raise (fuel : nat) (st : Cursor) (r : Random) :
  0 < min_ngram_length p < max_ngram_length p ->
  0 <= word_idx st ->
  no_raise (while_loop tok p fuel tokens st r).
Proof.
  intros Hrange. revert st r.
  induction fuel as [|fuel IH]; intros st r Hi;
    destruct (Z_lt_le_dec (word_idx st) len) as [Hlt|Hge];
    try (rewrite while_loop_exit by lia; exact I).
  - now rewrite while_loop_stall.
  - rewrite while_loop_step by assumption.
    destruct (loop_body_advances st r Hrange ltac:(lia))
      as (st1 & r1 & E & Hadv).
    unfold bind. rewrite E. apply IH. lia.
Qed.

(** With [word_mask_p = 0] the loop copies the remaining tokens. *)
Lemma while_loop_copy (fuel : nat) (st : Cursor) (r : Random) :
  word_mask_p p = 0%Q ->
  0 <= word_idx st ->
  (Z.to_nat (len - word_idx st) <= fuel)%nat ->
  exists st' r',
    while_loop tok p fuel tokens st r = Ok (st', r')
    /\ masked_sentences (acc st')
       = masked_sentences (acc st) ++ skipn (Z.to_nat (word_idx st)) tokens
    /\ answer (acc st') = answer (acc st).
Proof.
  intros Hwp. revert st r.
  induction fuel as [|fuel IH]; intros st r Hi Hfuel;
    destruct (Z_lt_le_dec (word_idx st) len) as [Hlt|Hge];
    try (rewrite while_loop_exit by lia; do 2 eexists;
         split; [reflexivity|]; split; [|reflexivity];
         rewrite skipn_all2 by (subst len; lia);
         now rewrite app_nil_r).
  rewrite while_loop_step by assumption.
  unfold bind.
  rewrite loop_body_keep by (rewrite Hwp; apply uniform_ge_0).
  destruct (py_index_ok tokens (word_idx st) (advance 1 r) ltac:(lia))
    as (t & E & Hnth).
  unfold bind. rewrite E.
  destruct (IH (mkCursor (word_idx st + 1)
                  (mkAcc (masked_sentences (acc st) ++ [t])
                         (answer (acc st))))
               (advance 1 r))
    as (st' & r' & E' & Hm & Ha); cbn [word_idx]; try lia.
  exists st', r'. split; [exact E'|]. split; [|exact Ha].
  rewrite Hm. cbn [acc masked_sentences word_idx].
  replace (Z.to_nat (word_idx st + 1)) with (S (Z.to_nat (word_idx st)))
    by lia.
  now rewrite (skipn_nth_error _ _ _ Hnth), <- app_assoc.
Qed.
End WordLoop.

(** ** The loops only append *)

Lemma extend_assoc_masked (a0 a : Acc) (x : pystr) :
  mkAcc (masked_sentences (extend a0 a) ++ [x]) (answer (extend a0 a))
  = extend a0 (mkAcc (masked_sentences a ++ [x]) (answer a)).
Proof. unfold extend; cbn. now rewrite app_assoc. Qed.

Lemma extend_assoc_both (a0 a : Acc) (x y : pystr) :
  mkAcc (masked_sentences (extend a0 a) ++ [x]) (answer (extend a0 a) ++ [y])
  = extend a0 (mkAcc (masked_sentences a ++ [x]) (answer a ++ [y])).
Proof. unfold extend; cbn. now rewrite !app_assoc. Qed.

Lemma extend_empty (a : Acc) : extend empty_acc a = a.
Proof. now destruct a. Qed.

Section Frame.
Variable tok : Tokenizer.
Variable p : Params.
Variable a0 : Acc.

Let lift (st : Cursor) : Cursor := mkCursor (word_idx st) (extend a0 (acc st)).

Lemma loop_body_frame tokens (i : Z) (a : Acc) (r : Random) :
  loop_body tok p tokens (mkCursor i (extend a0 a)) r
  = map_result lift (loop_body tok p tokens (mkCursor i a) r).
Proof.
  unfold loop_body, bind. rewrite random_eq.
  cbn [word_idx acc].
  destruct (Qltb (uniform r) (word_mask_p p)).
  - rewrite random_eq.
    destruct (Qltb (uniform (advance 1 r)) (ngram_mask_p p)).
    + destruct (randrange _ _ _) as [[n r']| |]; try reflexivity.
      cbn [ret map_result]. unfold lift. cbn [word_idx acc].
      now rewrite extend_assoc_both.
    + destruct (py_index _ _ _) as [[t r']| |]; try reflexivity.
      cbn [ret map_result]. unfold lift. cbn [word_idx acc].
      now rewrite extend_assoc_both.
  - destruct (py_index _ _ _) as [[t r']| |]; try reflexivity.
    cbn [ret map_result]. unfold lift. cbn [word_idx acc].
    now rewrite extend_assoc_masked.
Qed.

Lemma while_loop_frame fuel tokens (i : Z) (a : Acc) (r : Random) :
  while_loop tok p fuel tokens (mkCursor i (extend a0 a)) r
  = map_result lift (while_loop tok p fuel tokens (mkCursor i a) r).
Proof.
  revert i a r. induction fuel as [|fuel IH]; intros i a r;
    cbn [while_loop word_idx];
    destruct (i <? Z.of_nat (length tokens)); try reflexivity.
  unfold bind. rewrite loop_body_frame.
  destruct (loop_body tok p tokens (mkCursor i a) r) as [[[j a'] r']| |];
    try reflexivity.
  cbn [map_result]. unfold lift at 1. cbn [word_idx acc]. apply IH.
Qed.

Lemma mask_sent_frame fuel sent (a : Acc) (r : Random) :
  mask_sent tok p fuel sent (extend a0 a) r
  = map_result (extend a0) (mask_sent tok p fuel sent a r).
Proof.
  unfold mask_sent. destruct (in_alphabet sent).
  - cbn [ret map_result]. now rewrite extend_assoc_masked.
  - unfold bind. rewrite random_eq.
    destruct (Qltb (uniform r) (sentence_mask_p p)).
    + cbn [ret map_result]. now rewrite extend_assoc_both.
    + rewrite while_loop_frame.
      now destruct (while_loop _ _ _ _ _ _) as [[st r']| |].
Qed.

Lemma mask_sentences_frame fuel sents (a : Acc) (r : Random) :
  mask_sentences tok p fuel sents (extend a0 a) r
  = map_result (extend a0) (mask_sentences tok p fuel sents a r).
Proof.
  revert a r. induction sents as [|s sents IH]; intros a r;
    [reflexivity|].
  cbn [mask_sentences]. unfold bind. rewrite mask_sent_frame.
  destruct (mask_sent tok p fuel s a r) as [[a' r']| |]; try reflexivity.
  cbn [map_result]. apply IH.
Qed.
End Frame.

(** The lists built for a sequence of segments are those built for the
    segments before a delimiter, the delimiter on the masked side only,
    and those built for the segments after it. *)
Lemma mask_sentences_around tok p fuel pre post d r :
  in_alphabet d = true ->
  mask_sentences tok p fuel (pre ++ d :: post) empty_acc r
  = (a1 <- mask_sentences tok p fuel pre empty_acc ;;
     a2 <- mask_sentences tok p fuel post empty_acc ;;
     ret (mkAcc (masked_sentences a1 ++ [d] ++ masked_sentences a2)
                (answer a1 ++ answer a2))) r.
Proof.
  intros Hd. rewrite mask_sentences_app. unfold bind.
  destruct (mask_sentences tok p fuel pre empty_acc r) as [[a1 r1]| |];
    try reflexivity.
  cbn [mask_sentences]. unfold bind.
  rewrite mask_sent_delimiter by assumption.
  replace (mkAcc (masked_sentences a1 ++ [d]) (answer a1))
    with (extend (mkAcc (masked_sentences a1 ++ [d]) (answer a1)) empty_acc)
    by (unfold extend; cbn; now rewrite !app_nil_r).
  rewrite mask_sentences_frame.
  destruct (mask_sentences tok p fuel post empty_acc r1) as [[a2 r2]| |];
    try reflexivity.
  cbn [map_result ret]. unfold extend. cbn [masked_sentences answer].
  now rewrite <- app_assoc.
Qed.

(** ** Well-formed n-gram ranges: no exception and enough iterations *)

Section WellFormedRange.
Variable tok : Tokenizer.
Variable p : Params.
Hypothesis range_ok : 0 < min_ngram_length p < max_ngram_length p.

Lemma mask_sent_returns fuel sent a r :
  (length (tokenize tok sent) <= fuel)%nat ->
  exists a' r', mask_sent tok p fuel sent a r = Ok (a', r').
Proof.
  intros Hfuel.
  destruct (in_alphabet sent) eqn:Hs.
  - rewrite mask_sent_delimiter by assumption. now do 2 eexists.
  - destruct (Qltb (uniform r) (sentence_mask_p p)) eqn:Hu.
    + rewrite mask_sent_sentence by assumption. now do 2 eexists.
    + rewrite mask_sent_words by assumption.
      destruct (while_loop_returns tok p (tokenize tok sent) fuel
                  (mkCursor 0 a) (advance 1 r) range_ok)
        as (st & r' & E); cbn [word_idx]; try lia.
      unfold bind. rewrite E. now do 2 eexists.
Qed.

Lemma mask_sentences_returns fuel sents a r :
  Forall (fun sent => (length (tokenize tok sent) <= fuel)%nat) sents ->
  exists a' r', mask_sentences tok p fuel sents a r = Ok (a', r').
Proof.
  intros Hfuel. revert a r.
  induction Hfuel as [|s sents Hs _ IH]; intros a r.
  - now do 2 eexists.
  - cbn [mask_sentences]. unfold bind.
    destruct (mask_sent_returns fuel s a r Hs) as (a' & r' & E).
    rewrite E. apply IH.
Qed.

Lemma mask_sent_no_raise fuel sent a r :
  no_raise (mask_sent tok p fuel sent a r).
Proof.
  destruct (in_alphabet sent) eqn:Hs.
  - now rewrite mask_sent_delimiter.
  - destruct (Qltb (uniform r) (sentence_mask_p p)) eqn:Hu.
    + now rewrite mask_sent_sentence.
    + rewrite mask_sent_words by assumption.
      pose proof (while_loop_no_raise tok p (tokenize tok sent) fuel
                    (mkCursor 0 a) (advance 1 r) range_ok) as H.
      cbn [word_idx] in H. specialize (H ltac:(lia)).
      unfold bind.
      now destruct (while_loop _ _ _ _ _ _) as [[st r']| |].
Qed.

Lemma mask_sentences_no_raise fuel sents a r :
  no_raise (mask_sentences tok p fuel sents a r).
Proof.
  revert a r. induction sents as [|s sents IH]; intros a r; [exact I|].
  cbn [mask_sentences]. unfold bind.
  pose proof (mask_sent_no_raise fuel s a r) as H.
  destruct (mask_sent tok p fuel s a r) as [[a' r']| |];
    [apply IH | exact H | exact I].
Qed.

Lemma mask_article_no_raise fuel article r :
  no_raise (mask_article tok p fuel article r).
Proof.
  unfold mask_article, bind. rewrite random_eq.
  destruct (Qltb (uniform r) (document_mask_p p)); [exact I|].
  pose proof (mask_sentences_no_raise fuel
                (sentence_split (truncate tok article))
                (mkAcc [] []) (advance 1 r)) as H.
  now destruct (mask_sentences _ _ _ _ _ _) as [[a r']| |].
Qed.
End WellFormedRange.

Lemma token_bound_enough tok article fuel :
  (token_bound tok article <= fuel)%nat ->
  Forall (fun sent => (length (tokenize tok sent) <= fuel)%nat)
         (sentence_split (truncate tok article)).
Proof.
  unfold token_bound. intros H.
  apply list_max_le in H. now apply Forall_map in H.
Qed.

Lemma mask_article_returns tok p fuel article r :
  0 < min_ngram_length p < max_ngram_length p ->
  (token_bound tok article <= fuel)%nat ->
  exists out r', mask_article tok p fuel article r = Ok (out, r').
Proof.
  intros Hrange Hfuel. unfold mask_article, bind. rewrite random_eq.
  destruct (Qltb (uniform r) (document_mask_p p)); [now do 2 eexists|].
  destruct (mask_sentences_returns tok p Hrange fuel
              (sentence_split (truncate tok article)) (mkAcc [] [])
              (advance 1 r) (token_bound_enough _ _ _ Hfuel))
    as (a & r' & E).
  rewrite E. now do 2 eexists.
Qed.

(** ** A result does not depend on the bound that allowed it *)

Lemma while_loop_mono tok p tokens fuel fuel' st r out :
  (fuel <= fuel')%nat ->
  while_loop tok p fuel tokens st r = Ok out ->
  while_loop tok p fuel' tokens st r = Ok out.
Proof.
  revert fuel' st r. induction fuel as [|fuel IH]; intros fuel' st r Hle H;
    destruct (Z_lt_le_dec (word_idx st) (Z.of_nat (length tokens)))
      as [Hlt|Hge];
    try (rewrite while_loop_exit in * by lia; assumption).
  - now rewrite while_loop_stall in H.
  - destruct fuel' as [|fuel']; [lia|].
    rewrite while_loop_step in * by assumption.
    unfold bind in *.
    destruct (loop_body tok p tokens st r) as [[st1 r1]| |];
      try discriminate.
    apply IH; [lia | assumption].
Qed.

Lemma mask_sent_mono tok p fuel fuel' sent a r out :
  (fuel <= fuel')%nat ->
  mask_sent tok p fuel sent a r = Ok out ->
  mask_sent tok p fuel' sent a r = Ok out.
Proof.
  intros Hle. unfold mask_sent.
  destruct (in_alphabet sent); [trivial|].
  unfold bind. rewrite random_eq.
  destruct (Qltb (uniform r) (sentence_mask_p p)); [trivial|].
  destruct (while_loop tok p fuel _ _ _) as [[st r']| |] eqn:E;
    try discriminate.
  now rewrite (while_loop_mono _ _ _ _ _ _ _ _ Hle E).
Qed.

Lemma mask_sentences_mono tok p fuel fuel' sents a r out :
  (fuel <= fuel')%nat ->
  mask_sentences tok p fuel sents a r = Ok out ->
  mask_sentences tok p fuel' sents a r = Ok out.
Proof.
  intros Hle. revert a r.
  induction sents as [|s sents IH]; intros a r; [trivial|].
  cbn [mask_sentences]. unfold bind.
  destruct (mask_sent tok p fuel s a r) as [[a' r']| |] eqn:E;
    try discriminate.
  rewrite (mask_sent_mono _ _ _ _ _ _ _ _ Hle E). apply IH.
Qed.

Lemma mask_article_mono tok p fuel fuel' article r out :
  (fuel <= fuel')%nat ->
  mask_article tok p fuel article r = Ok out ->
  mask_article tok p fuel' article r = Ok out.
Proof.
  intros Hle. unfold mask_article, bind. rewrite random_eq.
  destruct (Qltb (uniform r) (document_mask_p p)); [trivial|].
  destruct (mask_sentences tok p fuel _ _ _) as [[a r']| |] eqn:E;
    try discriminate.
  now rewrite (mask_sentences_mono _ _ _ _ _ _ _ _ Hle E).
Qed.

(** ** The n-gram branch *)

(** C5: when both coin flips of an iteration succeed and [randrange]
    draws [n], then [min_ngram_length <= n < max_ngram_length], one marker
    is appended to the masked output, the concatenation of the slice
    [tokenized_sent[word_idx : word_idx + n]] is appended to the answer
    list, and the cursor advances by exactly [n]; from a cursor inside the
    sentence and a non-negative lower bound that slice is the next [n]
    tokens (as many of them as there are). *)
Theorem ngram_mask_step (tok : Tokenizer) (p : Params)
        (tokens : list pystr) (st : Cursor) (r r' : Random) (n : Z) :
  Qltb (uniform r) (word_mask_p p) = true ->
  Qltb (uniform (advance 1 r)) (ngram_mask_p p) = true ->
  randrange (min_ngram_length p) (max_ngram_length p) (advance 2 r)
  = Ok (n, r') ->
  min_ngram_length p <= n < max_ngram_length p
  /\ loop_body tok p tokens st r
     = Ok (mkCursor (word_idx st + n)
             (mkAcc (masked_sentences (acc st) ++ [mask_token tok])
                    (answer (acc st)
                     ++ [join [] (py_slice tokens (word_idx st)
                                           (word_idx st + n))])),
           r')
  /\ (0 <= word_idx st -> 0 <= min_ngram_length p ->
      py_slice tokens (word_idx st) (word_idx st + n)
      = firstn (Z.to_nat n) (skipn (Z.to_nat (word_idx st)) tokens)).
Proof.
  intros Hw Hn Hdraw.
  destruct (randrange_inv _ _ _ _ _ Hdraw) as [Hrange _].
  split; [exact Hrange|]. split.
  - rewrite loop_body_ngram by assumption.
    unfold bind. now rewrite Hdraw.
  - intros Hi Hmin. apply py_slice_forward; lia.
Qed.

Lemma ngram_mask_step_witness :
  let p := mkParams 0 0 1 1 2 6 in
  let tokens := [[97]; [98]; [99]; [100]; [101]]%N in
  let st := mkCursor 1 empty_acc in
  let r := const_random 5 in
  (Qltb (uniform r) (word_mask_p p) = true
   /\ Qltb (uniform (advance 1 r)) (ngram_mask_p p) = true
   /\ randrange (min_ngram_length p) (max_ngram_length p) (advance 2 r)
      = Ok (3, advance 3 r))
  /\ (2 <= 3 < 6
      /\ loop_body char_tokenizer p tokens st r
         = Ok (mkCursor 4
                 (mkAcc [mask_token char_tokenizer] [[98; 99; 100]%N]),
               advance 3 r)
      /\ (0 <= 1 -> 0 <= 2 ->
          py_slice tokens 1 4 = [[98]; [99]; [100]]%N)).
Proof.
  intros p tokens st r.
  assert (h1 : Qltb (uniform r) (word_mask_p p) = true) by reflexivity.
  assert (h2 : Qltb (uniform (advance 1 r)) (ngram_mask_p p) = true)
    by reflexivity.
  assert (h3 : randrange (min_ngram_length p) (max_ngram_length p)
                 (advance 2 r) = Ok (3, advance 3 r)) by reflexivity.
  exact (conj (conj h1 (conj h2 h3))
              (ngram_mask_step char_tokenizer p tokens st r (advance 3 r) 3
                               h1 h2 h3)).
Defined.

(** ** Delimiters *)

(** C7: outside the document branch, a delimiter of the truncated article
    is appended as it stands to the masked list and nothing is appended to
    the answer list for it: the masked text is the masked text of what
    precedes the delimiter, the delimiter, and the masked text of what
    follows, and the answer list is made of the answers of the two sides
    only. *)
Theorem delimiter_passes_through (tok : Tokenizer) (p : Params) (fuel : nat)
        (article s t : pystr) (d : char) (a : Acc) (r : Random) :
  is_delim d = true ->
  truncate tok article = s ++ d :: t ->
  Qltb (uniform r) (document_mask_p p) = false ->
  mask_sent tok p fuel [d] a r
  = Ok (mkAcc (masked_sentences a ++ [[d]]) (answer a), r)
  /\ mask_article tok p fuel article r
     = (a1 <- mask_sentences tok p fuel (sentence_split s) empty_acc ;;
        a2 <- mask_sentences tok p fuel (sentence_split t) empty_acc ;;
        ret (join [] (masked_sentences a1) ++ [d]
             ++ join [] (masked_sentences a2),
             join (mask_token tok) (answer a1 ++ answer a2)
             ++ mask_token tok))
         (advance 1 r).
Proof.
  intros Hd Htext Hdoc.
  assert (Hseg : in_alphabet [d] = true)
    by now rewrite in_alphabet_singleton.
  split; [now apply mask_sent_delimiter|].
  unfold mask_article. unfold bind at 1.
  rewrite random_eq, Hdoc, Htext, sentence_split_app by assumption.
  change (mkAcc [] []) with empty_acc.
  unfold bind at 1. rewrite mask_sentences_around by assumption.
  unfold bind.
  destruct (mask_sentences tok p fuel (sentence_split s) empty_acc
              (advance 1 r)) as [[a1 r1]| |]; try reflexivity.
  destruct (mask_sentences tok p fuel (sentence_split t) empty_acc r1)
    as [[a2 r2]| |]; try reflexivity.
  unfold ret, render. cbn [masked_sentences answer].
  rewrite !join_nil, concat_app. cbn [app concat]. reflexivity.
Qed.

Lemma delimiter_passes_through_witness :
  let r := replay [9007199254740991; 9007199254740991;
                   9007199254740991; 9007199254740991;
                   9007199254740991]%N in
  (is_delim 44%N = true
   /\ truncate char_tokenizer [97; 44; 98]%N = [97]%N ++ 44%N :: [98]%N
   /\ Qltb (uniform r) (document_mask_p default_params) = false)
  /\ mask_sent char_tokenizer default_params 5 [44%N] empty_acc r
     = Ok (mkAcc [[44%N]] [], r)
  /\ value (mask_article char_tokenizer default_params 5 [97; 44; 98]%N r)
     = Ok ([97; 44; 98]%N, mask_token char_tokenizer).
Proof.
  intros r.
  assert (h1 : is_delim 44%N = true) by reflexivity.
  assert (h2 : truncate char_tokenizer [97; 44; 98]%N
               = [97]%N ++ 44%N :: [98]%N) by reflexivity.
  assert (h3 : Qltb (uniform r) (document_mask_p default_params) = false)
    by reflexivity.
  split; [exact (conj h1 (conj h2 h3))|].
  destruct (delimiter_passes_through char_tokenizer default_params 5
              [97; 44; 98]%N [97]%N [98]%N 44%N empty_acc r h1 h2 h3)
    as [e1 e2].
  split; [exact e1|]. rewrite e2. reflexivity.
Defined.

(** ** Empty fragments *)

Lemma filter_content_last (segs : list pystr) (frag : pystr) :
  in_alphabet frag = false ->
  filter is_content (segs ++ [frag]) = filter is_content segs ++ [frag].
Proof.
  intros H. rewrite filter_app. cbn [filter]. unfold is_content at 2.
  now rewrite H.
Qed.

(** With every content segment masked, an article that ends in a
    delimiter has a marker after that delimiter and two markers at the end
    of its answer. *)
Lemma mask_article_trailing_delimiter tok wp np mn mx fuel article s d r :
  truncate tok article = s ++ [d] ->
  is_delim d = true ->
  value (mask_article tok (mkParams 0 1 wp np mn mx) fuel article r)
  = Ok (join [] (map (fun x => if in_alphabet x then x else mask_token tok)
                     (sentence_split s))
        ++ [d] ++ mask_token tok,
        join (mask_token tok) (filter is_content (sentence_split s))
        ++ mask_token tok ++ mask_token tok).
Proof.
  intros Htext Hd. rewrite mask_article_all_masked. cbn [value].
  rewrite Htext, sentence_split_app by assumption.
  change (sentence_split []) with [@nil char].
  destruct (split_from_last [] s ltac:(constructor))
    as (segs & frag & E & Hfrag).
  unfold sentence_split at 2 4. rewrite E.
  do 2 f_equal.
  - rewrite !join_nil, map_app, concat_app. cbn [map concat].
    rewrite in_alphabet_singleton, Hd, in_alphabet_nil.
    now rewrite !app_nil_r.
  - rewrite filter_app. cbn [filter].
    change (is_content []) with true.
    change (is_content [d]) with (negb (in_alphabet [d])).
    rewrite in_alphabet_singleton, Hd. cbn [negb].
    rewrite filter_content_last by assumption.
    rewrite join_snoc, <- !app_assoc. reflexivity.
Qed.

(** C9: an empty fragment of the split is a content segment; such a
    fragment follows a delimiter that ends the article and stands between
    two consecutive delimiters; when it is masked as a sentence, a marker
    is appended to the masked list and the empty string to the answer
    list; so, with every content segment masked, an article ending in a
    delimiter gets a marker after that delimiter, for no removed text, and
    an answer ending in two consecutive markers. *)
Theorem empty_fragment_is_content (tok : Tokenizer) (fuel : nat) :
  in_alphabet [] = false
  /\ (forall s d, is_delim d = true ->
        sentence_split (s ++ [d]) = sentence_split s ++ [[d]; []])
  /\ (forall s t d1 d2, is_delim d1 = true -> is_delim d2 = true ->
        sentence_split (s ++ d1 :: d2 :: t)
        = sentence_split s ++ [d1] :: [] :: [d2] :: sentence_split t)
  /\ (forall p a r,
        Qltb (uniform r) (sentence_mask_p p) = true ->
        mask_sent tok p fuel [] a r
        = Ok (mkAcc (masked_sentences a ++ [mask_token tok])
                    (answer a ++ [[]]),
              advance 1 r))
  /\ (forall wp np mn mx article s d r,
        truncate tok article = s ++ [d] -> is_delim d = true ->
        value (mask_article tok (mkParams 0 1 wp np mn mx) fuel article r)
        = Ok (join [] (map (fun x => if in_alphabet x then x
                                     else mask_token tok)
                           (sentence_split s))
              ++ [d] ++ mask_token tok,
              join (mask_token tok) (filter is_content (sentence_split s))
              ++ mask_token tok ++ mask_token tok)).
Proof.
  split; [reflexivity|]. split; [|split; [|split]].
  - intros s d Hd. now rewrite sentence_split_app.
  - intros s t d1 d2 H1 H2. rewrite sentence_split_app by assumption.
    do 2 f_equal. unfold sentence_split. cbn [split_from]. now rewrite H2.
  - intros p a r Hu. now apply mask_sent_sentence.
  - intros. now apply mask_article_trailing_delimiter.
Qed.

Lemma empty_fragment_is_content_witness :
  sentence_split [97; 12290]%N = [[97]; [12290]; []]%N
  /\ sentence_split [97; 44; 44; 98]%N = [[97]; [44]; []; [44]; [98]]%N
  /\ value (mask_article char_tokenizer (mkParams 0 1 0 0 2 6) 0
                         [97; 12290]%N (const_random 0))
     = Ok ([91; 77; 65; 83; 75; 93; 12290; 91; 77; 65; 83; 75; 93]%N,
           [97; 91; 77; 65; 83; 75; 93; 91; 77; 65; 83; 75; 93]%N).
Proof.
  destruct (empty_fragment_is_content char_tokenizer 0)
    as (_ & Hend & Htwo & _ & Hart).
  split; [exact (Hend [97]%N 12290%N eq_refl)|].
  split; [exact (Htwo [97]%N [98]%N 44%N 44%N eq_refl eq_refl)|].
  exact (Hart 0%Q 0%Q 2 6 [97; 12290]%N [97]%N 12290%N (const_random 0)
              eq_refl eq_refl).
Defined.

(** ** No masking below the document tier *)

Lemma mask_sent_copy tok p fuel sent a r :
  sentence_mask_p p = 0%Q -> word_mask_p p = 0%Q ->
  (in_alphabet sent = false -> join [] (tokenize tok sent) = sent) ->
  (length (tokenize tok sent) <= fuel)%nat ->
  exists a' r',
    mask_sent tok p fuel sent a r = Ok (a', r')
    /\ join [] (masked_sentences a') = join [] (masked_sentences a) ++ sent
    /\ answer a' = answer a.
Proof.
  intros Hsp Hwp Hlossless Hfuel.
  destruct (in_alphabet sent) eqn:Hs.
  - rewrite mask_sent_delimiter by assumption.
    do 2 eexists. split; [reflexivity|]. split; [|reflexivity].
    cbn [masked_sentences]. rewrite !join_nil, concat_app. cbn.
    now rewrite app_nil_r.
  - rewrite mask_sent_words
      by (try assumption; rewrite Hsp; apply uniform_ge_0).
    destruct (while_loop_copy tok p (tokenize tok sent) fuel (mkCursor 0 a)
                (advance 1 r) Hwp)
      as (st & r' & E & Hm & Ha); cbn [word_idx]; try lia.
    unfold bind. rewrite E. exists (acc st), r'.
    split; [reflexivity|]. split; [|exact Ha].
    rewrite Hm. cbn [acc word_idx skipn Z.to_nat].
    rewrite <- (Hlossless eq_refl) at 2.
    now rewrite !join_nil, concat_app.
Qed.

Lemma mask_sentences_copy tok p fuel sents a r :
  sentence_mask_p p = 0%Q -> word_mask_p p = 0%Q ->
  (forall sent, In sent sents -> in_alphabet sent = false ->
                join [] (tokenize tok sent) = sent) ->
  Forall (fun sent => (length (tokenize tok sent) <= fuel)%nat) sents ->
  exists a' r',
    mask_sentences tok p fuel sents a r = Ok (a', r')
    /\ join [] (masked_sentences a')
       = join [] (masked_sentences a) ++ join [] sents
    /\ answer a' = answer a.
Proof.
  intros Hsp Hwp Hlossless Hfuel. revert a r.
  induction Hfuel as [|s sents Hs _ IH]; intros a r.
  - do 2 eexists. split; [reflexivity|]. cbn [join].
    now rewrite app_nil_r.
  - cbn [mask_sentences]. unfold bind.
    destruct (mask_sent_copy tok p fuel s a r Hsp Hwp
                (Hlossless s (or_introl eq_refl)) Hs)
      as (a1 & r1 & E1 & Hm1 & Ha1).
    rewrite E1.
    destruct (IH (fun x Hx => Hlossless x (or_intror Hx)) a1 r1)
      as (a2 & r2 & E2 & Hm2 & Ha2).
    exists a2, r2. split; [exact E2|]. split; [|congruence].
    rewrite Hm2, Hm1, !join_nil. cbn [concat].
    now rewrite app_assoc.
Qed.

(** C6, as the code has it: with [document_mask_p = 0],
    [sentence_mask_p = 0] and [word_mask_p = 0], and a tokenizer whose
    tokens concatenate back to each content segment, the masked text is
    the truncated article and the answer is one marker. *)
Theorem word_tier_identity (tok : Tokenizer) (np : Q) (mn mx : Z)
        (fuel : nat) (article : pystr) (r : Random) :
  (forall sent, In sent (sentence_split (truncate tok article)) ->
                in_alphabet sent = false ->
                join [] (tokenize tok sent) = sent) ->
  (token_bound tok article <= fuel)%nat ->
  value (mask_article tok (mkParams 0 0 0 np mn mx) fuel article r)
  = Ok (truncate tok article, mask_token tok).
Proof.
  intros Hlossless Hfuel. unfold mask_article, bind. rewrite random_eq.
  cbn [document_mask_p]. rewrite uniform_ge_0.
  destruct (mask_sentences_copy tok (mkParams 0 0 0 np mn mx) fuel
              (sentence_split (truncate tok article)) (mkAcc [] [])
              (advance 1 r) eq_refl eq_refl Hlossless
              (token_bound_enough _ _ _ Hfuel))
    as (a & r' & E & Hm & Ha).
  rewrite E. cbn [ret value]. unfold render.
  rewrite Hm, Ha. cbn [masked_sentences answer join app].
  rewrite join_nil. unfold sentence_split. rewrite split_from_concat.
  reflexivity.
Qed.

Lemma word_tier_identity_witness :
  ((forall sent, In sent (sentence_split
                            (truncate char_tokenizer [97; 98; 44; 99]%N)) ->
                 in_alphabet sent = false ->
                 join [] (tokenize char_tokenizer sent) = sent)
   /\ (token_bound char_tokenizer [97; 98; 44; 99]%N <= 2)%nat)
  /\ value (mask_article char_tokenizer (mkParams 0 0 0 (1 # 2) 2 6) 2
                         [97; 98; 44; 99]%N (const_random 0))
     = Ok ([97; 98; 44; 99]%N, mask_token char_tokenizer).
Proof.
  assert (h1 : forall sent,
             In sent (sentence_split
                        (truncate char_tokenizer [97; 98; 44; 99]%N)) ->
             in_alphabet sent = false ->
             join [] (tokenize char_tokenizer sent) = sent).
  { intros sent Hin _. cbn in Hin.
    destruct Hin as [<-|[<-|[<-|[]]]]; reflexivity. }
  assert (h2 : (token_bound char_tokenizer [97; 98; 44; 99]%N <= 2)%nat)
    by (vm_compute; lia).
  exact (conj (conj h1 h2)
              (word_tier_identity char_tokenizer (1 # 2) 2 6 2
                                  [97; 98; 44; 99]%N (const_random 0)
                                  h1 h2)).
Defined.

(** The claim C6 as stated fails: with [word_mask_p = 0] and
    [document_mask_p = 0] but the default [sentence_mask_p], the sentence
    tier masks the article. *)
Lemma word_tier_identity_needs_sentence_mask_0 :
  let p := mkParams 0 (7 # 100) 0 (1 # 2) 2 6 in
  value (mask_article char_tokenizer p 5 [97; 98]%N (const_random 0))
  = Ok ([91; 77; 65; 83; 75; 93]%N, [97; 98; 91; 77; 65; 83; 75; 93]%N)
  /\ value (mask_article char_tokenizer p 5 [97; 98]%N (const_random 0))
     <> Ok (truncate char_tokenizer [97; 98]%N, mask_token char_tokenizer).
Proof.
  split; [reflexivity|]. vm_compute. discriminate.
Qed.

(** ** Errors and termination *)

(** C8, as the code has it: when [0 < min_ngram_length < max_ngram_length]
    a call raises nothing, whatever bound is put on the iterations, and
    returns a pair as soon as the bound allows one iteration per token of
    the longest segment; in the n-gram branch a drawn [n] that reaches
    past the end of the sentence yields the tokens that remain, possibly
    none, and the iteration returns. *)
Theorem mask_article_no_error (tok : Tokenizer) (p : Params) (fuel : nat)
        (article : pystr) (r : Random) :
  0 < min_ngram_length p < max_ngram_length p ->
  no_raise (mask_article tok p fuel article r)
  /\ ((token_bound tok article <= fuel)%nat ->
      exists masked_text answer_text r',
        mask_article tok p fuel article r
        = Ok ((masked_text, answer_text), r'))
  /\ (forall tokens st r0 r1 n,
        0 <= word_idx st ->
        Qltb (uniform r0) (word_mask_p p) = true ->
        Qltb (uniform (advance 1 r0)) (ngram_mask_p p) = true ->
        randrange (min_ngram_length p) (max_ngram_length p) (advance 2 r0)
        = Ok (n, r1) ->
        Z.of_nat (length tokens) <= word_idx st + n ->
        loop_body tok p tokens st r0
        = Ok (mkCursor (word_idx st + n)
                (mkAcc (masked_sentences (acc st) ++ [mask_token tok])
                       (answer (acc st)
                        ++ [join [] (skipn (Z.to_nat (word_idx st))
                                           tokens)])),
              r1)).
Proof.
  intros Hrange. split; [now apply mask_article_no_raise|]. split.
  - intros Hfuel.
    destruct (mask_article_returns tok p fuel article r Hrange Hfuel)
      as ([mt at'] & r' & E).
    now exists mt, at', r'.
  - intros tokens st r0 r1 n Hi Hw Hn Hdraw Hpast.
    rewrite loop_body_ngram by assumption.
    unfold bind. rewrite Hdraw. cbn [ret].
    now rewrite py_slice_past_end by assumption.
Qed.

Lemma mask_article_no_error_witness :
  let article := [97; 98; 99; 100; 101; 12290]%N in
  let r := replay [9007199254740991; 9007199254740991; 0; 0; 3;
                   9007199254740991; 9007199254740991]%N in
  0 < min_ngram_length default_params < max_ngram_length default_params
  /\ no_raise (mask_article char_tokenizer default_params 5 article r)
  /\ value (mask_article char_tokenizer default_params 5 article r)
     = Ok ([91; 77; 65; 83; 75; 93; 12290]%N,
           [97; 98; 99; 100; 101; 91; 77; 65; 83; 75; 93]%N).
Proof.
  intros article r.
  assert (h : 0 < min_ngram_length default_params
              < max_ngram_length default_params) by (cbn; lia).
  destruct (mask_article_no_error char_tokenizer default_params 5 article r h)
    as (Hno & _ & _).
  split; [exact h|]. split; [exact Hno|reflexivity].
Defined.

(** The claim C8 as stated fails: an empty range makes [randrange] raise
    [ValueError] as soon as the n-gram branch is taken, and a negative
    range moves the cursor before the sentence, where indexing raises
    [IndexError]. *)
Lemma mask_article_raises_on_malformed_range :
  mask_article char_tokenizer
    (mkParams (3 # 100) (7 # 100) (1 # 10) (1 # 2) 6 2) 5 [97; 98]%N
    (replay [9007199254740991; 9007199254740991; 0; 0]%N)
  = Raise ValueError
  /\ mask_article char_tokenizer
       (mkParams 0 0 (1 # 2) (1 # 2) (-5) (-4)) 5 [97]%N
       (replay [0; 0; 0; 0; 0; 9007199254740991]%N)
     = Raise IndexError.
Proof. split; reflexivity. Qed.

(** C10: when [0 < min_ngram_length < max_ngram_length], every iteration
    of the word-level loop entered inside the sentence returns and leaves
    the cursor at least one token further, and the call returns: one and
    the same result for every bound on the iterations that is at least
    the number of tokens of the longest segment. *)
Theorem mask_article_terminates (tok : Tokenizer) (p : Params)
        (article : pystr) (r : Random) :
  0 < min_ngram_length p < max_ngram_length p ->
  (forall tokens st r0,
      0 <= word_idx st < Z.of_nat (length tokens) ->
      exists st' r',
        loop_body tok p tokens st r0 = Ok (st', r')
        /\ word_idx st + 1 <= word_idx st')
  /\ exists out r',
       forall fuel, (token_bound tok article <= fuel)%nat ->
                    mask_article tok p fuel article r = Ok (out, r').
Proof.
  intros Hrange. split.
  - intros tokens st r0 Hi. now apply loop_body_advances.
  - destruct (mask_article_returns tok p (token_bound tok article) article r
                Hrange (Nat.le_refl _)) as (out & r' & E).
    exists out, r'. intros fuel Hfuel.
    exact (mask_article_mono _ _ _ _ _ _ _ Hfuel E).
Qed.

Lemma mask_article_terminates_witness :
  let article := [97; 98; 99; 100; 101; 12290]%N in
  let r := const_random 0 in
  let p := mkParams 0 0 1 1 1 2 in
  0 < min_ngram_length p < max_ngram_length p
  /\ exists out r',
       forall fuel, (token_bound char_tokenizer article <= fuel)%nat ->
                    mask_article char_tokenizer p fuel article r
                    = Ok (out, r').
Proof.
  intros article r p.
  assert (h : 0 < min_ngram_length p < max_ngram_length p) by (cbn; lia).
  split; [exact h|].
  exact (proj2 (mask_article_terminates char_tokenizer p article r h)).
Defined.

(** ** The trailing marker *)

(** C1, as the code has it: a returned answer is the list of answer
    entries (the truncated article in the document branch, the list built
    by the loops otherwise) joined by the marker, with one marker
    appended; so it ends with the marker, and it is exactly one marker
    when the list is empty. *)
Theorem answer_ends_with_mask (tok : Tokenizer) (p : Params) (fuel : nat)
        (article masked_text answer_text : pystr) (r r' : Random) :
  mask_article tok p fuel article r = Ok ((masked_text, answer_text), r') ->
  ends_with answer_text (mask_token tok) = true
  /\ exists entries,
       answer_text = join (mask_token tok) entries ++ mask_token tok
       /\ (entries = [] -> answer_text = mask_token tok)
       /\ ((Qltb (uniform r) (document_mask_p p) = true
            /\ entries = [truncate tok article])
           \/ (Qltb (uniform r) (document_mask_p p) = false
               /\ exists ms,
                    mask_sentences tok p fuel
                      (sentence_split (truncate tok article)) (mkAcc [] [])
                      (advance 1 r)
                    = Ok (mkAcc ms entries, r'))).
Proof.
  unfold mask_article, bind. rewrite random_eq.
  destruct (Qltb (uniform r) (document_mask_p p)) eqn:Hdoc.
  - intros H. inversion H; subst; clear H.
    split; [apply ends_with_app|].
    exists [truncate tok article]. split; [reflexivity|].
    split; [discriminate|]. left. now split.
  - destruct (mask_sentences tok p fuel _ _ _) as [[[ms ans] r1]| |] eqn:E;
      try discriminate.
    intros H. inversion H; subst; clear H.
    split; [apply ends_with_app|].
    exists ans. split; [reflexivity|].
    split; [now intros ->|]. right. split; [reflexivity|]. now exists ms.
Qed.

Lemma answer_ends_with_mask_witness :
  let r := const_random 9007199254740991 in
  mask_article char_tokenizer default_params 3 [97; 98; 12290]%N r
  = Ok (([97; 98; 12290]%N, mask_token char_tokenizer), advance 5 r)
  /\ ends_with (mask_token char_tokenizer) (mask_token char_tokenizer) = true.
Proof.
  intros r.
  assert (h : mask_article char_tokenizer default_params 3
                [97; 98; 12290]%N r
              = Ok (([97; 98; 12290]%N, mask_token char_tokenizer),
                    advance 5 r)) by reflexivity.
  split; [exact h|].
  exact (proj1 (answer_ends_with_mask char_tokenizer default_params 3
                  [97; 98; 12290]%N _ _ r _ h)).
Defined.

(** The claim C1 as stated fails: with the default parameters the article
    [a。] can have its fragment [a] and the empty fragment after [。]
    masked, and its answer [a[MASK][MASK]] then ends with two markers. *)
Lemma answer_can_end_with_two_masks :
  let mask := mask_token char_tokenizer in
  value (mask_article char_tokenizer default_params 5 [97; 12290]%N
           (replay [9007199254740991; 0; 0]%N))
  = Ok (mask ++ [12290]%N ++ mask, [97]%N ++ mask ++ mask)
  /\ ends_with ([97]%N ++ mask ++ mask) (mask ++ mask) = true.
Proof. split; reflexivity. Qed.


(** * Further properties of the code *)

(** ** The answers restore the article *)

Lemma str_eqb_eq (s t : pystr) : str_eqb s t = true <-> s = t.
Proof.
  revert t. induction s as [|a s IH]; intros [|b t]; cbn;
    try (split; [discriminate|congruence]); [tauto|].
  rewrite andb_true_iff, char_eqb_eq, IH. split.
  - now intros [-> ->].
  - intros H. now inversion H.
Qed.

Lemma str_eqb_refl (s : pystr) : str_eqb s s = true.
Proof. now apply str_eqb_eq. Qed.

Lemma str_eqb_neq (s t : pystr) : s <> t -> str_eqb s t = false.
Proof.
  intros H. destruct (str_eqb s t) eqn:E; [|reflexivity].
  now apply str_eqb_eq in E.
Qed.

Lemma fill_snoc_keep (mask t : pystr) (ms ans filled : list pystr) :
  str_eqb t mask = false ->
  fill mask ms ans = Some filled ->
  fill mask (ms ++ [t]) ans = Some (filled ++ [t]).
Proof.
  intros Ht. revert ans filled.
  induction ms as [|m ms IH]; intros ans filled H; cbn [app fill] in *.
  - destruct ans; [|discriminate]. inversion H; subst.
    now rewrite Ht.
  - destruct (str_eqb m mask).
    + destruct ans as [|a ans]; [discriminate|].
      destruct (fill mask ms ans) as [f|] eqn:E; [|discriminate].
      inversion H; subst. now rewrite (IH _ _ E).
    + destruct (fill mask ms ans) as [f|] eqn:E; [|discriminate].
      inversion H; subst. now rewrite (IH _ _ E).
Qed.

Lemma fill_snoc_mask (mask a : pystr) (ms ans filled : list pystr) :
  fill mask ms ans = Some filled ->
  fill mask (ms ++ [mask]) (ans ++ [a]) = Some (filled ++ [a]).
Proof.
  revert ans filled.
  induction ms as [|m ms IH]; intros ans filled H; cbn [app fill] in *.
  - destruct ans; [|discriminate]. inversion H; subst.
    now rewrite str_eqb_refl.
  - destruct (str_eqb m mask).
    + destruct ans as [|b ans]; [discriminate|].
      destruct (fill mask ms ans) as [f|] eqn:E; [|discriminate].
      inversion H; subst. cbn [app]. now rewrite (IH _ _ E).
    + destruct (fill mask ms ans) as [f|] eqn:E; [|discriminate].
      inversion H; subst. now rewrite (IH _ _ E).
Qed.

Lemma concat_snoc {A} (xs : list (list A)) (x : list A) :
  concat (xs ++ [x]) = concat xs ++ x.
Proof. rewrite concat_app. cbn. now rewrite app_nil_r. Qed.

Lemma firstn_plus {A} (a b : nat) (l : list A) :
  firstn (a + b) l = firstn a l ++ firstn b (skipn a l).
Proof.
  revert l. induction a as [|a IH]; intros l; [reflexivity|].
  destruct l as [|x l]; cbn.
  - now rewrite firstn_nil.
  - now rewrite IH.
Qed.

Lemma firstn_snoc_nth {A} (k : nat) (l : list A) (x : A) :
  nth_error l k = Some x -> firstn (S k) l = firstn k l ++ [x].
Proof.
  revert l. induction k as [|k IH]; intros [|y l] H; try discriminate.
  - cbn in *. now inversion H.
  - cbn in H. rewrite (firstn_cons (S k)), (firstn_cons k), (IH _ H).
    reflexivity.
Qed.

Section RoundTrip.
Variable tok : Tokenizer.
Variable p : Params.
Variable tokens : list pystr.
Variable base : pystr.
Hypothesis min_nonneg : 0 <= min_ngram_length p.
Hypothesis tokens_plain :
  Forall (fun t => str_eqb t (mask_token tok) = false) tokens.

(** An iteration keeps the filled list equal to what precedes the
    sentence followed by the tokens before the cursor. *)
Lemma loop_body_fills (st st' : Cursor) (r r' : Random)
      (filled : list pystr) :
  0 <= word_idx st < Z.of_nat (length tokens) ->
  fill (mask_token tok) (masked_sentences (acc st)) (answer (acc st))
  = Some filled ->
  concat filled = base ++ concat (firstn (Z.to_nat (word_idx st)) tokens) ->
  loop_body tok p tokens st r = Ok (st', r') ->
  word_idx st <= word_idx st'
  /\ exists filled',
       fill (mask_token tok) (masked_sentences (acc st')) (answer (acc st'))
       = Some filled'
       /\ concat filled'
          = base ++ concat (firstn (Z.to_nat (word_idx st')) tokens).
Proof.
  intros Hi Hfill Hcat.
  destruct (Qltb (uniform r) (word_mask_p p)) eqn:Hw.
  - destruct (Qltb (uniform (advance 1 r)) (ngram_mask_p p)) eqn:Hn.
    + rewrite loop_body_ngram by assumption. unfold bind.
      destruct (randrange _ _ _) as [[n r1]| |] eqn:E; try discriminate.
      apply randrange_inv in E. destruct E as [Hn' _].
      intros H. inversion H; subst; clear H. cbn [word_idx acc
        masked_sentences answer].
      split; [lia|]. eexists. split; [apply fill_snoc_mask; eassumption|].
      rewrite (concat_snoc (A:=char) filled), Hcat, join_nil, py_slice_forward by lia.
      rewrite Z2Nat.inj_add, firstn_plus, concat_app by lia.
      now rewrite app_assoc.
    + rewrite loop_body_single by assumption. unfold bind.
      destruct (py_index_ok tokens (word_idx st) (advance 2 r) Hi)
        as (t & E & Hnth).
      rewrite E. intros H. inversion H; subst; clear H.
      cbn [word_idx acc masked_sentences answer].
      split; [lia|]. eexists. split; [apply fill_snoc_mask; eassumption|].
      rewrite (concat_snoc (A:=char) filled), Hcat.
      replace (Z.to_nat (word_idx st + 1)) with (S (Z.to_nat (word_idx st)))
        by lia.
      now rewrite (firstn_snoc_nth _ _ _ Hnth), (concat_snoc (A:=char)), app_assoc.
  - rewrite loop_body_keep by assumption. unfold bind.
    destruct (py_index_ok tokens (word_idx st) (advance 1 r) Hi)
      as (t & E & Hnth).
    rewrite E. intros H. inversion H; subst; clear H.
    cbn [word_idx acc masked_sentences answer].
    split; [lia|]. eexists. split.
    + apply fill_snoc_keep; [|eassumption].
      rewrite Forall_forall in tokens_plain.
      apply tokens_plain. eapply nth_error_In; eassumption.
    + rewrite (concat_snoc (A:=char) filled), Hcat.
      replace (Z.to_nat (word_idx st + 1)) with (S (Z.to_nat (word_idx st)))
        by lia.
      now rewrite (firstn_snoc_nth _ _ _ Hnth), (concat_snoc (A:=char)), app_assoc.
Qed.

Lemma while_loop_fills (fuel : nat) (st st' : Cursor) (r r' : Random)
      (filled : list pystr) :
  0 <= word_idx st ->
  fill (mask_token tok) (masked_sentences (acc st)) (answer (acc st))
  = Some filled ->
  concat filled = base ++ concat (firstn (Z.to_nat (word_idx st)) tokens) ->
  while_loop tok p fuel tokens st r = Ok (st', r') ->
  exists filled',
    fill (mask_token tok) (masked_sentences (acc st')) (answer (acc st'))
    = Some filled'
    /\ concat filled' = base ++ concat tokens.
Proof.
  revert st r filled.
  induction fuel as [|fuel IH]; intros st r filled Hi Hfill Hcat;
    destruct (Z_lt_le_dec (word_idx st) (Z.of_nat (length tokens)))
      as [Hlt|Hge];
    try (rewrite while_loop_exit by lia; intros H; inversion H; subst;
         exists filled; split; [assumption|];
         now rewrite Hcat, firstn_all2 by lia).
  - now rewrite while_loop_stall.
  - rewrite while_loop_step by assumption. unfold bind.
    destruct (loop_body tok p tokens st r) as [[st1 r1]| |] eqn:E;
      try discriminate.
    destruct (loop_body_fills st st1 r r1 filled ltac:(lia) Hfill Hcat E)
      as (Hle & filled1 & Hfill1 & Hcat1).
    apply (IH st1 r1 filled1); [lia|assumption..].
Qed.
End RoundTrip.

Lemma not_in_plain (mask : pystr) (tokens : list pystr) :
  ~ In mask tokens -> Forall (fun t => str_eqb t mask = false) tokens.
Proof.
  intros H. apply Forall_forall. intros t Ht.
  apply str_eqb_neq. intros ->. now apply H.
Qed.

Lemma mask_sent_fills tok p fuel sent a a' r r' filled :
  0 <= min_ngram_length p ->
  in_alphabet (mask_token tok) = false ->
  (in_alphabet sent = false ->
   join [] (tokenize tok sent) = sent
   /\ ~ In (mask_token tok) (tokenize tok sent)) ->
  fill (mask_token tok) (masked_sentences a) (answer a) = Some filled ->
  mask_sent tok p fuel sent a r = Ok (a', r') ->
  exists filled',
    fill (mask_token tok) (masked_sentences a') (answer a') = Some filled'
    /\ concat filled' = concat filled ++ sent.
Proof.
  intros Hmin Hmask Hsent Hfill.
  destruct (in_alphabet sent) eqn:Hs.
  - rewrite mask_sent_delimiter by assumption.
    intros H. inversion H; subst; clear H. cbn [masked_sentences answer].
    exists (filled ++ [sent]). split; [|apply (concat_snoc (A:=char))].
    apply fill_snoc_keep; [|assumption].
    apply str_eqb_neq. intros ->. congruence.
  - destruct (Hsent eq_refl) as [Hjoin Hplain].
    destruct (Qltb (uniform r) (sentence_mask_p p)) eqn:Hu.
    + rewrite mask_sent_sentence by assumption.
      intros H. inversion H; subst; clear H. cbn [masked_sentences answer].
      exists (filled ++ [sent]). split; [|apply (concat_snoc (A:=char))].
      now apply fill_snoc_mask.
    + rewrite mask_sent_words by assumption. unfold bind.
      destruct (while_loop _ _ _ _ _ _) as [[st r1]| |] eqn:E;
        try discriminate.
      intros H. inversion H; subst; clear H.
      destruct (while_loop_fills tok p (tokenize tok sent) (concat filled)
                  Hmin (not_in_plain _ _ Hplain) fuel (mkCursor 0 a) st
                  (advance 1 r) r' filled)
        as (filled' & Hfill' & Hcat'); cbn [word_idx acc]; try assumption;
        try lia.
      * cbn. now rewrite app_nil_r.
      * exists filled'. split; [assumption|].
        now rewrite Hcat', <- (join_nil (tokenize tok sent)), Hjoin.
Qed.

Lemma mask_sentences_fills tok p fuel sents a a' r r' filled :
  0 <= min_ngram_length p ->
  in_alphabet (mask_token tok) = false ->
  (forall sent, In sent sents -> in_alphabet sent = false ->
                join [] (tokenize tok sent) = sent
                /\ ~ In (mask_token tok) (tokenize tok sent)) ->
  fill (mask_token tok) (masked_sentences a) (answer a) = Some filled ->
  mask_sentences tok p fuel sents a r = Ok (a', r') ->
  exists filled',
    fill (mask_token tok) (masked_sentences a') (answer a') = Some filled'
    /\ concat filled' = concat filled ++ concat sents.
Proof.
  intros Hmin Hmask. revert a r filled.
  induction sents as [|s sents IH]; intros a r filled Hsents Hfill.
  - intros H. inversion H; subst; clear H. exists filled.
    split; [assumption|]. cbn. now rewrite app_nil_r.
  - cbn [mask_sentences]. unfold bind.
    destruct (mask_sent tok p fuel s a r) as [[a1 r1]| |] eqn:E;
      try discriminate.
    destruct (mask_sent_fills tok p fuel s a a1 r r1 filled Hmin Hmask
                (Hsents s (or_introl eq_refl)) Hfill E)
      as (filled1 & Hfill1 & Hcat1).
    intros H.
    destruct (IH a1 r1 filled1 (fun x Hx => Hsents x (or_intror Hx))
                 Hfill1 H) as (filled' & Hfill' & Hcat').
    exists filled'. split; [assumption|].
    rewrite Hcat', Hcat1. cbn [concat]. now rewrite app_assoc.
Qed.

(** X1: outside the document branch, when the tokens of every content
    segment concatenate back to the segment and none of them is the
    marker, the marker is no delimiter and [min_ngram_length >= 0], a
    returned pair comes from two lists in which the markers and the
    answers match one for one, and replacing each marker of the masked
    list by its answer gives the truncated article back. *)
Theorem answers_restore_article (tok : Tokenizer) (p : Params) (fuel : nat)
        (article masked_text answer_text : pystr) (r r' : Random) :
  0 <= min_ngram_length p ->
  in_alphabet (mask_token tok) = false ->
  (forall sent, In sent (sentence_split (truncate tok article)) ->
                in_alphabet sent = false ->
                join [] (tokenize tok sent) = sent
                /\ ~ In (mask_token tok) (tokenize tok sent)) ->
  Qltb (uniform r) (document_mask_p p) = false ->
  mask_article tok p fuel article r = Ok ((masked_text, answer_text), r') ->
  exists a filled,
    mask_sentences tok p fuel (sentence_split (truncate tok article))
                   (mkAcc [] []) (advance 1 r) = Ok (a, r')
    /\ masked_text = join [] (masked_sentences a)
    /\ answer_text = join (mask_token tok) (answer a) ++ mask_token tok
    /\ fill (mask_token tok) (masked_sentences a) (answer a) = Some filled
    /\ join [] filled = truncate tok article.
Proof.
  intros Hmin Hmask Hsents Hdoc.
  unfold mask_article, bind. rewrite random_eq, Hdoc.
  destruct (mask_sentences tok p fuel _ _ _) as [[a r1]| |] eqn:E;
    try discriminate.
  intros H. inversion H; subst; clear H.
  destruct (mask_sentences_fills tok p fuel _ (mkAcc [] []) a (advance 1 r)
              r' [] Hmin Hmask Hsents eq_refl E)
    as (filled & Hfill & Hcat).
  exists a, filled. repeat (split; [reflexivity|]).
  split; [assumption|].
  rewrite join_nil, Hcat. cbn [concat app].
  unfold sentence_split. apply split_from_concat.
Qed.

Lemma answers_restore_article_witness :
  let article := [97; 98; 99; 100; 101; 12290]%N in
  let r := replay [9007199254740991; 9007199254740991; 0; 0; 3;
                   9007199254740991; 9007199254740991]%N in
  mask_article char_tokenizer default_params 5 article r
  = Ok (([91; 77; 65; 83; 75; 93; 12290]%N,
         [97; 98; 99; 100; 101; 91; 77; 65; 83; 75; 93]%N), advance 6 r)
  /\ exists a filled,
       fill (mask_token char_tokenizer) (masked_sentences a) (answer a)
       = Some filled
       /\ join [] filled = article.
Proof.
  intros article r.
  assert (h0 : 0 <= min_ngram_length default_params) by (cbn; lia).
  assert (h1 : in_alphabet (mask_token char_tokenizer) = false)
    by reflexivity.
  assert (h2 : forall sent,
             In sent (sentence_split (truncate char_tokenizer article)) ->
             in_alphabet sent = false ->
             join [] (tokenize char_tokenizer sent) = sent
             /\ ~ In (mask_token char_tokenizer)
                     (tokenize char_tokenizer sent)).
  { intros sent Hin _. cbn in Hin.
    destruct Hin as [<-|[<-|[<-|[]]]]; (split; [reflexivity|]);
      cbn; intuition discriminate. }
  assert (h3 : Qltb (uniform r) (document_mask_p default_params) = false)
    by reflexivity.
  assert (h4 : mask_article char_tokenizer default_params 5 article r
               = Ok (([91; 77; 65; 83; 75; 93; 12290]%N,
                      [97; 98; 99; 100; 101; 91; 77; 65; 83; 75; 93]%N),
                     advance 6 r)) by reflexivity.
  split; [exact h4|].
  destruct (answers_restore_article char_tokenizer default_params 5 article
              _ _ r _ h0 h1 h2 h3 h4)
    as (a & filled & _ & _ & _ & Hfill & Hjoin).
  exists a, filled. split; assumption.
Defined.

(** ** Truncation *)

(** X2: the truncated article is the concatenation of the leading
    [model_max_length] tokens of the article, hence a prefix of the
    concatenation of all its tokens, and all of it when the article has no
    more tokens than that; a negative [model_max_length] drops that many
    tokens from the end instead. *)
Theorem truncate_keeps_leading_tokens (tok : Tokenizer) (article : pystr) :
  let tokens := tokenize tok article in
  let k := model_max_length tok in
  (0 <= k ->
   truncate tok article = join [] (firstn (Z.to_nat k) tokens)
   /\ join [] tokens
      = truncate tok article ++ join [] (skipn (Z.to_nat k) tokens))
  /\ (Z.of_nat (length tokens) <= k -> truncate tok article = join [] tokens)
  /\ (k < 0 ->
      truncate tok article
      = join [] (firstn (length tokens - Z.to_nat (- k)) tokens)).
Proof.
  intros tokens k. unfold truncate, py_slice_to. fold tokens k.
  assert (Hpos : 0 <= k ->
                 py_slice tokens 0 k = firstn (Z.to_nat k) tokens).
  { intros Hk. now rewrite <- (Z.add_0_l k) at 1;
      rewrite py_slice_forward by lia. }
  split; [|split].
  - intros Hk. rewrite Hpos by assumption. split; [reflexivity|].
    rewrite !join_nil, <- concat_app. now rewrite firstn_skipn.
  - intros Hk. rewrite Hpos by lia. now rewrite firstn_all2 by lia.
  - intros Hk. unfold py_slice, slice_bound.
    replace (0 <? 0) with false by reflexivity.
    replace (k <? 0) with true by (symmetry; apply Z.ltb_lt; lia).
    rewrite Z.min_l by lia. cbn [Z.to_nat skipn].
    do 2 f_equal. lia.
Qed.

Lemma truncate_keeps_leading_tokens_witness :
  let short := mkTokenizer (map (fun c => [c])) 2 [91; 93]%N in
  let odd := mkTokenizer (map (fun c => [c])) (-1) [91; 93]%N in
  (0 <= model_max_length short /\ model_max_length odd < 0)
  /\ truncate short [97; 98; 99]%N = [97; 98]%N
  /\ truncate odd [97; 98; 99]%N = [97; 98]%N.
Proof.
  intros short odd.
  assert (h1 : 0 <= model_max_length short) by (cbn; lia).
  assert (h2 : model_max_length odd < 0) by (cbn; lia).
  split; [exact (conj h1 h2)|]. split.
  - exact (proj1 (proj1 (truncate_keeps_leading_tokens short
                           [97; 98; 99]%N) h1)).
  - exact (proj2 (proj2 (truncate_keeps_leading_tokens odd
                           [97; 98; 99]%N)) h2).
Defined.

(** ** The empty article *)

(** X3: when the truncated article is empty and the tokenizer makes no
    token of the empty string, the call returns for every parameter
    setting, malformed ranges included, and without any iteration: the
    answer is one marker, and the masked text is the marker if the
    document or the sentence draw succeeds and empty otherwise. *)
Theorem empty_article_returns (tok : Tokenizer) (p : Params) (fuel : nat)
        (article : pystr) (r : Random) :
  truncate tok article = [] ->
  tokenize tok [] = [] ->
  value (mask_article tok p fuel article r)
  = Ok (if Qltb (uniform r) (document_mask_p p)
           || Qltb (uniform (advance 1 r)) (sentence_mask_p p)
        then mask_token tok else [],
        mask_token tok).
Proof.
  intros Htext Htok. unfold mask_article, bind. rewrite random_eq, Htext.
  destruct (Qltb (uniform r) (document_mask_p p)); [reflexivity|].
  change (sentence_split []) with [@nil char].
  cbn [mask_sentences orb]. unfold bind.
  destruct (Qltb (uniform (advance 1 r)) (sentence_mask_p p)) eqn:Hu.
  - now rewrite mask_sent_sentence.
  - rewrite mask_sent_words by (assumption || reflexivity).
    unfold bind. rewrite Htok, while_loop_exit by (cbn; lia). reflexivity.
Qed.

Lemma empty_article_returns_witness :
  let p := mkParams (1 # 2) (1 # 2) 1 1 6 2 in
  (truncate char_tokenizer [] = [] /\ tokenize char_tokenizer [] = [])
  /\ value (mask_article char_tokenizer p 0 []
              (const_random 9007199254740991))
     = Ok ([], mask_token char_tokenizer).
Proof.
  intros p.
  assert (h1 : truncate char_tokenizer [] = []) by reflexivity.
  assert (h2 : tokenize char_tokenizer [] = []) by reflexivity.
  split; [exact (conj h1 h2)|].
  exact (empty_article_returns char_tokenizer p 0 []
           (const_random 9007199254740991) h1 h2).
Defined.

(** ** Malformed ranges *)

Lemma bind_stop {A B} (e : option exn) (k : A -> M B) (m : M A) (r : Random) :
  m r = stop e -> bind m k r = stop e.
Proof. unfold bind. intros ->. now destruct e. Qed.

(** With no sentence masked, a pass that cannot get through the word
    loop of a segment with tokens ends the way that loop ends. *)
Lemma mask_sentences_stops tok p fuel (e : option exn) sents a r :
  sentence_mask_p p = 0%Q ->
  (forall sent a r, has_words tok sent ->
     while_loop tok p fuel (tokenize tok sent) (mkCursor 0 a) r = stop e) ->
  Exists (has_words tok) sents ->
  mask_sentences tok p fuel sents a r = stop e.
Proof.
  intros Hsp Hloop. revert a r.
  induction sents as [|s sents IH]; intros a r Hex;
    [now apply Exists_nil in Hex|].
  cbn [mask_sentences].
  destruct (in_alphabet s) eqn:Hs.
  - unfold bind. rewrite mask_sent_delimiter by assumption.
    apply IH. apply Exists_cons in Hex.
    destruct Hex as [[Hc _]|Hex]; [congruence|assumption].
  - destruct (tokenize tok s) as [|t ts] eqn:Ht.
    + unfold bind.
      rewrite mask_sent_words
        by (try assumption; rewrite Hsp; apply uniform_ge_0).
      unfold bind. rewrite Ht, while_loop_exit by (cbn; lia).
      cbn [ret acc]. apply IH. apply Exists_cons in Hex.
      destruct Hex as [[_ Hc]|Hex]; [congruence|assumption].
    + apply bind_stop.
      rewrite mask_sent_words
        by (try assumption; rewrite Hsp; apply uniform_ge_0).
      apply bind_stop. apply Hloop. split; [assumption|].
      rewrite Ht. discriminate.
Qed.

Lemma mask_article_stops tok p fuel (e : option exn) article r :
  document_mask_p p = 0%Q ->
  sentence_mask_p p = 0%Q ->
  (forall sent a r, has_words tok sent ->
     while_loop tok p fuel (tokenize tok sent) (mkCursor 0 a) r = stop e) ->
  Exists (has_words tok) (sentence_split (truncate tok article)) ->
  mask_article tok p fuel article r = stop e.
Proof.
  intros Hdp Hsp Hloop Hex. unfold mask_article.
  unfold bind at 1. rewrite random_eq, Hdp, uniform_ge_0.
  apply bind_stop. now apply mask_sentences_stops.
Qed.

Lemma randrange_empty (start stop : Z) (r : Random) :
  stop <= start -> randrange start stop r = Raise ValueError.
Proof.
  intros H. unfold randrange.
  now replace (0 <? stop - start) with false
    by (symmetry; apply Z.ltb_ge; lia).
Qed.

(** X4: an iteration that takes the n-gram branch raises [ValueError]
    exactly when [max_ngram_length <= min_ngram_length]; so, with every
    word masked as an n-gram and no document or sentence masked, an empty
    range makes the call raise [ValueError] on every article that has a
    content segment with tokens. *)
Theorem empty_range_raises (tok : Tokenizer) (mn mx : Z) :
  (forall p tokens st r,
     Qltb (uniform r) (word_mask_p p) = true ->
     Qltb (uniform (advance 1 r)) (ngram_mask_p p) = true ->
     (loop_body tok p tokens st r = Raise ValueError
      <-> max_ngram_length p <= min_ngram_length p))
  /\ (mx <= mn ->
      forall fuel article r,
        Exists (has_words tok) (sentence_split (truncate tok article)) ->
        mask_article tok (mkParams 0 0 1 1 mn mx) (S fuel) article r
        = Raise ValueError).
Proof.
  split.
  - intros p tokens st r Hw Hn. rewrite loop_body_ngram by assumption.
    unfold bind. split.
    + intros H.
      destruct (Z_lt_le_dec (min_ngram_length p) (max_ngram_length p))
        as [Hlt|Hle]; [|assumption].
      destruct (randrange_ok _ _ (advance 2 r) Hlt) as (n & E & _).
      rewrite E in H. discriminate.
    + intros Hle. now rewrite randrange_empty.
  - intros Hle fuel article r Hex.
    apply (mask_article_stops tok _ (S fuel) (Some ValueError));
      try reflexivity; try assumption.
    intros sent a r0 [_ Hwords].
    rewrite while_loop_step
      by (cbn [word_idx]; destruct (tokenize tok sent);
          [congruence | cbn; lia]).
    apply (bind_stop (Some ValueError)).
    rewrite loop_body_ngram by apply uniform_lt_1.
    apply (bind_stop (Some ValueError)).
    now apply randrange_empty.
Qed.

Lemma empty_range_raises_witness :
  (2 <= 6
   /\ Exists (has_words char_tokenizer)
             (sentence_split (truncate char_tokenizer [12290; 97]%N)))
  /\ mask_article char_tokenizer (mkParams 0 0 1 1 6 2) 1 [12290; 97]%N
                  (const_random 0)
     = Raise ValueError.
Proof.
  assert (h1 : 2 <= 6) by lia.
  assert (h2 : Exists (has_words char_tokenizer)
                      (sentence_split
                         (truncate char_tokenizer [12290; 97]%N))).
  { cbn. do 2 apply Exists_cons_tl. apply Exists_cons_hd.
    split; [reflexivity|discriminate]. }
  split; [exact (conj h1 h2)|].
  exact (proj2 (empty_range_raises char_tokenizer 6 2) h1 0%nat
               [12290; 97]%N (const_random 0) h2).
Defined.

(** The range [0, 1) draws 0 for ever: the cursor never moves. *)
Lemma while_loop_spins tok p tokens fuel st r :
  word_mask_p p = 1%Q -> ngram_mask_p p = 1%Q ->
  min_ngram_length p = 0 -> max_ngram_length p = 1 ->
  word_idx st < Z.of_nat (length tokens) ->
  while_loop tok p fuel tokens st r = OutOfFuel.
Proof.
  intros Hwp Hnp Hmin Hmax. revert st r.
  induction fuel as [|fuel IH]; intros st r Hi.
  - now apply while_loop_stall.
  - rewrite while_loop_step by assumption. unfold bind.
    rewrite loop_body_ngram by (rewrite ?Hwp, ?Hnp; apply uniform_lt_1).
    unfold bind.
    destruct (randrange_ok (min_ngram_length p) (max_ngram_length p)
                (advance 2 r) ltac:(lia)) as (n & E & Hn).
    rewrite E. cbn [ret]. apply IH. cbn [word_idx]. lia.
Qed.

(** X5: with the range [0, 1) every n-gram has length 0; when every word
    is masked as an n-gram and no document or sentence is masked, the
    word loop of a segment with tokens never moves its cursor, and the
    call does not return within any bound on the iterations. *)
Theorem zero_length_ngrams_never_end (tok : Tokenizer) (fuel : nat)
        (article : pystr) (r : Random) :
  Exists (has_words tok) (sentence_split (truncate tok article)) ->
  mask_article tok (mkParams 0 0 1 1 0 1) fuel article r = OutOfFuel.
Proof.
  intros Hex.
  apply (mask_article_stops tok _ fuel None); try reflexivity;
    try assumption.
  intros sent a r0 [_ Hwords].
  apply while_loop_spins; try reflexivity.
  cbn [word_idx]. destruct (tokenize tok sent); [congruence|cbn; lia].
Qed.

Lemma zero_length_ngrams_never_end_witness :
  Exists (has_words char_tokenizer)
         (sentence_split (truncate char_tokenizer [97]%N))
  /\ mask_article char_tokenizer (mkParams 0 0 1 1 0 1) 1000 [97]%N
                  (const_random 0)
     = OutOfFuel.
Proof.
  assert (h : Exists (has_words char_tokenizer)
                     (sentence_split (truncate char_tokenizer [97]%N))).
  { cbn. apply Exists_cons_hd. split; [reflexivity|discriminate]. }
  split; [exact h|].
  exact (zero_length_ngrams_never_end char_tokenizer 1000 [97]%N
           (const_random 0) h).
Defined.

(** ** No exception without a negative length *)

Section NonNegativeRange.
Variable tok : Tokenizer.
Variable p : Params.
Hypothesis range_ok : 0 <= min_ngram_length p < max_ngram_length p.

Lemma loop_body_forward tokens (st : Cursor) (r : Random) :
  0 <= word_idx st < Z.of_nat (length tokens) ->
  exists st' r',
    loop_body tok p tokens st r = Ok (st', r')
    /\ word_idx st <= word_idx st'.
Proof.
  intros Hi.
  destruct (Qltb (uniform r) (word_mask_p p)) eqn:Hw.
  - destruct (Qltb (uniform (advance 1 r)) (ngram_mask_p p)) eqn:Hn.
    + rewrite loop_body_ngram by assumption.
      destruct (randrange_ok (min_ngram_length p) (max_ngram_length p)
                  (advance 2 r) ltac:(lia)) as (n & E & Hn').
      unfold bind. rewrite E. do 2 eexists. split; [reflexivity|].
      cbn [word_idx]. lia.
    + rewrite loop_body_single by assumption.
      destruct (py_index_ok tokens (word_idx st) (advance 2 r) Hi)
        as (t & E & _).
      unfold bind. rewrite E. do 2 eexists. split; [reflexivity|].
      cbn [word_idx]. lia.
  - rewrite loop_body_keep by assumption.
    destruct (py_index_ok tokens (word_idx st) (advance 1 r) Hi)
      as (t & E & _).
    unfold bind. rewrite E. do 2 eexists. split; [reflexivity|].
    cbn [word_idx]. lia.
Qed.

Lemma while_loop_quiet tokens fuel (st : Cursor) (r : Random) :
  0 <= word_idx st -> no_raise (while_loop tok p fuel tokens st r).
Proof.
  revert st r. induction fuel as [|fuel IH]; intros st r Hi;
    destruct (Z_lt_le_dec (word_idx st) (Z.of_nat (length tokens)))
      as [Hlt|Hge];
    try (rewrite while_loop_exit by lia; exact I).
  - now rewrite while_loop_stall.
  - rewrite while_loop_step by assumption.
    destruct (loop_body_forward tokens st r ltac:(lia))
      as (st1 & r1 & E & Hle).
    unfold bind. rewrite E. apply IH. lia.
Qed.

Lemma mask_sentences_quiet fuel sents a r :
  no_raise (mask_sentences tok p fuel sents a r).
Proof.
  revert a r. induction sents as [|s sents IH]; intros a r; [exact I|].
  cbn [mask_sentences]. unfold bind.
  assert (H : no_raise (mask_sent tok p fuel s a r)).
  { destruct (in_alphabet s) eqn:Hs.
    - now rewrite mask_sent_delimiter.
    - destruct (Qltb (uniform r) (sentence_mask_p p)) eqn:Hu.
      + now rewrite mask_sent_sentence.
      + rewrite mask_sent_words by assumption.
        pose proof (while_loop_quiet (tokenize tok s) fuel (mkCursor 0 a)
                      (advance 1 r) (Z.le_refl 0)) as H.
        unfold bind.
        now destruct (while_loop _ _ _ _ _ _) as [[st r']| |]. }
  destruct (mask_sent tok p fuel s a r) as [[a' r']| |];
    [apply IH | exact H | exact I].
Qed.
End NonNegativeRange.

(** X6: when [0 <= min_ngram_length < max_ngram_length] a call raises no
    exception, whatever the tokenizer, the article, the probabilities,
    the draws and the bound on the iterations: the cursor never moves
    backwards, so no index is out of range. *)
Theorem nonnegative_range_never_raises (tok : Tokenizer) (p : Params)
        (fuel : nat) (article : pystr) (r : Random) :
  0 <= min_ngram_length p < max_ngram_length p ->
  no_raise (mask_article tok p fuel article r).
Proof.
  intros Hrange. unfold mask_article, bind. rewrite random_eq.
  destruct (Qltb (uniform r) (document_mask_p p)); [exact I|].
  pose proof (mask_sentences_quiet tok p Hrange fuel
                (sentence_split (truncate tok article)) (mkAcc [] [])
                (advance 1 r)) as H.
  now destruct (mask_sentences _ _ _ _ _ _) as [[a r']| |].
Qed.

Lemma nonnegative_range_never_raises_witness :
  let p := mkParams 0 0 1 1 0 1 in
  0 <= min_ngram_length p < max_ngram_length p
  /\ no_raise (mask_article char_tokenizer p 7 [97; 98]%N (const_random 0)).
Proof.
  intros p.
  assert (h : 0 <= min_ngram_length p < max_ngram_length p) by (cbn; lia).
  split; [exact h|].
  exact (nonnegative_range_never_raises char_tokenizer p 7 [97; 98]%N
           (const_random 0) h).
Defined.

(** ** Every word masked on its own *)

Lemma while_loop_each tok p tokens fuel (st : Cursor) (r : Random) :
  word_mask_p p = 1%Q -> ngram_mask_p p = 0%Q ->
  0 <= word_idx st ->
  (Z.to_nat (Z.of_nat (length tokens) - word_idx st) <= fuel)%nat ->
  exists st' r',
    while_loop tok p fuel tokens st r = Ok (st', r')
    /\ masked_sentences (acc st')
       = masked_sentences (acc st)
         ++ repeat (mask_token tok)
                   (length (skipn (Z.to_nat (word_idx st)) tokens))
    /\ answer (acc st')
       = answer (acc st) ++ skipn (Z.to_nat (word_idx st)) tokens.
Proof.
  intros Hwp Hnp. revert st r.
  induction fuel as [|fuel IH]; intros st r Hi Hfuel;
    destruct (Z_lt_le_dec (word_idx st) (Z.of_nat (length tokens)))
      as [Hlt|Hge];
    try (rewrite while_loop_exit by lia; do 2 eexists;
         split; [reflexivity|];
         rewrite skipn_all2 by lia; cbn [length repeat];
         now rewrite !app_nil_r).
  rewrite while_loop_step by assumption. unfold bind.
  rewrite loop_body_single
    by (rewrite ?Hwp, ?Hnp; auto using uniform_lt_1, uniform_ge_0).
  destruct (py_index_ok tokens (word_idx st) (advance 2 r) ltac:(lia))
    as (t & E & Hnth).
  unfold bind. rewrite E.
  destruct (IH (mkCursor (word_idx st + 1)
                  (mkAcc (masked_sentences (acc st) ++ [mask_token tok])
                         (answer (acc st) ++ [t])))
               (advance 2 r))
    as (st' & r' & E' & Hm & Ha); cbn [word_idx]; try lia.
  exists st', r'. split; [exact E'|].
  rewrite Hm, Ha. cbn [acc masked_sentences answer word_idx].
  replace (Z.to_nat (word_idx st + 1)) with (S (Z.to_nat (word_idx st)))
    by lia.
  rewrite (skipn_nth_error _ _ _ Hnth). cbn [length repeat].
  now rewrite <- !app_assoc.
Qed.

Lemma mask_sentences_each tok p fuel sents a r :
  sentence_mask_p p = 0%Q -> word_mask_p p = 1%Q -> ngram_mask_p p = 0%Q ->
  Forall (fun sent => (length (tokenize tok sent) <= fuel)%nat) sents ->
  exists r',
    mask_sentences tok p fuel sents a r
    = Ok (mkAcc
            (masked_sentences a
             ++ flat_map (fun s => if in_alphabet s then [s]
                                   else repeat (mask_token tok)
                                               (length (tokenize tok s)))
                         sents)
            (answer a
             ++ flat_map (fun s => if in_alphabet s then []
                                   else tokenize tok s) sents),
          r').
Proof.
  intros Hsp Hwp Hnp Hfuel. revert a r.
  induction Hfuel as [|s sents Hs _ IH]; intros a r.
  - exists r. cbn. rewrite !app_nil_r. now destruct a.
  - cbn [mask_sentences flat_map]. unfold bind.
    destruct (in_alphabet s) eqn:Hin.
    + rewrite mask_sent_delimiter by assumption.
      destruct (IH (mkAcc (masked_sentences a ++ [s]) (answer a)) r)
        as (r' & E).
      exists r'. rewrite E. cbn [masked_sentences answer app].
      now rewrite <- app_assoc.
    + rewrite mask_sent_words
        by (try assumption; rewrite Hsp; apply uniform_ge_0).
      destruct (while_loop_each tok p (tokenize tok s) fuel (mkCursor 0 a)
                  (advance 1 r) Hwp Hnp)
        as (st & r1 & E1 & Hm & Ha); cbn [word_idx]; try lia.
      unfold bind. rewrite E1. cbn [ret].
      destruct (IH (acc st) r1) as (r' & E).
      exists r'. rewrite E, Hm, Ha.
      cbn [acc masked_sentences answer Z.to_nat skipn].
      now rewrite <- !app_assoc.
Qed.

(** X7: with [word_mask_p = 1], [ngram_mask_p = 0] and no document or
    sentence masked, every token of every content segment is replaced by
    one marker and becomes one answer, the delimiters staying in place:
    the answer holds the tokens of the content segments in order, whatever
    the n-gram range. *)
Theorem every_token_masked (tok : Tokenizer) (mn mx : Z) (fuel : nat)
        (article : pystr) (r : Random) :
  (token_bound tok article <= fuel)%nat ->
  let sents := sentence_split (truncate tok article) in
  value (mask_article tok (mkParams 0 0 1 0 mn mx) fuel article r)
  = Ok (join []
          (flat_map (fun s => if in_alphabet s then [s]
                              else repeat (mask_token tok)
                                          (length (tokenize tok s)))
                    sents),
        join (mask_token tok)
             (flat_map (fun s => if in_alphabet s then []
                                 else tokenize tok s) sents)
        ++ mask_token tok).
Proof.
  intros Hfuel sents. unfold mask_article, bind. rewrite random_eq.
  cbn [document_mask_p]. rewrite uniform_ge_0.
  destruct (mask_sentences_each tok (mkParams 0 0 1 0 mn mx) fuel sents
              (mkAcc [] []) (advance 1 r) eq_refl eq_refl eq_refl
              (token_bound_enough _ _ _ Hfuel)) as (r' & E).
  fold sents. now rewrite E.
Qed.

Lemma every_token_masked_witness :
  (token_bound char_tokenizer [97; 98; 44; 99]%N <= 2)%nat
  /\ value (mask_article char_tokenizer (mkParams 0 0 1 0 6 2) 2
              [97; 98; 44; 99]%N (const_random 0))
     = Ok ([91; 77; 65; 83; 75; 93; 91; 77; 65; 83; 75; 93; 44;
            91; 77; 65; 83; 75; 93]%N,
           [97; 91; 77; 65; 83; 75; 93; 98; 91; 77; 65; 83; 75; 93; 99;
            91; 77; 65; 83; 75; 93]%N).
Proof.
  assert (h : (token_bound char_tokenizer [97; 98; 44; 99]%N <= 2)%nat)
    by (vm_compute; lia).
  split; [exact h|].
  exact (every_token_masked char_tokenizer 6 2 2 [97; 98; 44; 99]%N
           (const_random 0) h).
Defined.

(** ** The delimiters of the masked text *)

Lemma py_index_In {A} (xs : list A) (i : Z) (r r' : Random) (x : A) :
  py_index xs i r = Ok (x, r') -> In x xs /\ r' = r.
Proof.
  unfold py_index.
  destruct ((0 <=? _) && (_ <? _)); [|discriminate].
  destruct (nth_error xs _) as [y|] eqn:E; [|discriminate].
  intros H. inversion H; subst. split; [|reflexivity].
  eapply nth_error_In; eassumption.
Qed.

Lemma filter_delim_free (s : pystr) :
  delimiter_free s -> filter is_delim s = [].
Proof.
  induction 1 as [|c s Hc _ IH]; [reflexivity|].
  cbn [filter]. now rewrite Hc.
Qed.

Lemma filter_delim_snoc (ms : list pystr) (x : pystr) :
  delimiter_free x ->
  filter is_delim (concat (ms ++ [x])) = filter is_delim (concat ms).
Proof.
  intros Hx. rewrite (concat_snoc (A:=char)), filter_app.
  now rewrite (filter_delim_free x Hx), app_nil_r.
Qed.

Lemma delimiter_free_tokens (tokens : list pystr) :
  delimiter_free (concat tokens) -> Forall delimiter_free tokens.
Proof.
  induction tokens as [|t tokens IH]; intros H; [constructor|].
  cbn in H. apply Forall_app in H. destruct H as [Ht H].
  constructor; [assumption|now apply IH].
Qed.

Section Delimiters.
Variable tok : Tokenizer.
Variable p : Params.
Variable tokens : list pystr.
Hypothesis mask_free : delimiter_free (mask_token tok).
Hypothesis tokens_free : Forall delimiter_free tokens.

Lemma loop_body_delims (st st' : Cursor) (r r' : Random) :
  loop_body tok p tokens st r = Ok (st', r') ->
  filter is_delim (concat (masked_sentences (acc st')))
  = filter is_delim (concat (masked_sentences (acc st))).
Proof.
  unfold loop_body, bind. rewrite random_eq.
  destruct (Qltb (uniform r) (word_mask_p p)).
  - rewrite random_eq.
    destruct (Qltb (uniform (advance 1 r)) (ngram_mask_p p)).
    + destruct (randrange _ _ _) as [[n r1]| |]; try discriminate.
      intros H. inversion H; subst. cbn [acc masked_sentences].
      now apply filter_delim_snoc.
    + destruct (py_index _ _ _) as [[t r1]| |]; try discriminate.
      intros H. inversion H; subst. cbn [acc masked_sentences].
      now apply filter_delim_snoc.
  - destruct (py_index _ _ _) as [[t r1]| |] eqn:E; try discriminate.
    intros H. inversion H; subst. cbn [acc masked_sentences].
    apply filter_delim_snoc. apply py_index_In in E.
    rewrite Forall_forall in tokens_free. now apply tokens_free.
Qed.

Lemma while_loop_delims fuel (st st' : Cursor) (r r' : Random) :
  while_loop tok p fuel tokens st r = Ok (st', r') ->
  filter is_delim (concat (masked_sentences (acc st')))
  = filter is_delim (concat (masked_sentences (acc st))).
Proof.
  revert st r. induction fuel as [|fuel IH]; intros st r;
    cbn [while_loop];
    destruct (word_idx st <? Z.of_nat (length tokens));
    try discriminate;
    try (intros H; inversion H; subst; reflexivity).
  unfold bind.
  destruct (loop_body tok p tokens st r) as [[st1 r1]| |] eqn:E;
    try discriminate.
  intros H. rewrite (IH _ _ H). now apply (loop_body_delims _ _ _ _ E).
Qed.
End Delimiters.

Lemma mask_sentences_delims tok p fuel sents a a' r r' :
  delimiter_free (mask_token tok) ->
  Forall (fun sent => if in_alphabet sent
                      then exists c, sent = [c] /\ is_delim c = true
                      else delimiter_free sent) sents ->
  (forall sent, In sent sents -> in_alphabet sent = false ->
                join [] (tokenize tok sent) = sent) ->
  mask_sentences tok p fuel sents a r = Ok (a', r') ->
  filter is_delim (concat (masked_sentences a'))
  = filter is_delim (concat (masked_sentences a))
    ++ filter is_delim (concat sents).
Proof.
  intros Hmask Hsegs. revert a r.
  induction Hsegs as [|s sents Hs _ IH]; intros a r Hlossless.
  - intros H. inversion H; subst. cbn. now rewrite app_nil_r.
  - cbn [mask_sentences]. unfold bind.
    destruct (mask_sent tok p fuel s a r) as [[a1 r1]| |] eqn:E;
      try discriminate.
    intros H.
    rewrite (IH a1 r1 (fun x Hx => Hlossless x (or_intror Hx)) H).
    cbn [concat]. rewrite filter_app, app_assoc. f_equal.
    destruct (in_alphabet s) eqn:Hin.
    + rewrite mask_sent_delimiter in E by assumption.
      inversion E; subst. cbn [masked_sentences].
      now rewrite (concat_snoc (A:=char)), filter_app.
    + rewrite (filter_delim_free s Hs), app_nil_r.
      destruct (Qltb (uniform r) (sentence_mask_p p)) eqn:Hu.
      * rewrite mask_sent_sentence in E by assumption.
        inversion E; subst. cbn [masked_sentences].
        now apply filter_delim_snoc.
      * rewrite mask_sent_words in E by assumption. unfold bind in E.
        destruct (while_loop _ _ _ _ _ _) as [[st r2]| |] eqn:Ew;
          try discriminate.
        inversion E; subst.
        apply (while_loop_delims tok p (tokenize tok s) Hmask) in Ew;
          [exact Ew|].
        apply delimiter_free_tokens.
        now rewrite <- join_nil, (Hlossless s (or_introl eq_refl) Hin).
Qed.

(** X8: outside the document branch, when the marker has no delimiter
    character and the tokens of every content segment concatenate back to
    the segment, the delimiter characters of a returned masked text are
    those of the truncated article, in the same order: masking neither
    drops nor adds punctuation. *)
Theorem masked_text_keeps_delimiters (tok : Tokenizer) (p : Params)
        (fuel : nat) (article masked_text answer_text : pystr)
        (r r' : Random) :
  delimiter_free (mask_token tok) ->
  (forall sent, In sent (sentence_split (truncate tok article)) ->
                in_alphabet sent = false ->
                join [] (tokenize tok sent) = sent) ->
  Qltb (uniform r) (document_mask_p p) = false ->
  mask_article tok p fuel article r = Ok ((masked_text, answer_text), r') ->
  filter is_delim masked_text = filter is_delim (truncate tok article).
Proof.
  intros Hmask Hlossless Hdoc.
  unfold mask_article, bind. rewrite random_eq, Hdoc.
  destruct (mask_sentences tok p fuel _ _ _) as [[a r1]| |] eqn:E;
    try discriminate.
  intros H. inversion H; subst; clear H.
  rewrite join_nil.
  rewrite (mask_sentences_delims tok p fuel _ _ _ _ _ Hmask
             (split_from_segments [] _ ltac:(constructor)) Hlossless E).
  cbn [masked_sentences concat filter app].
  unfold sentence_split. now rewrite split_from_concat.
Qed.

Lemma masked_text_keeps_delimiters_witness :
  let article := [97; 98; 99; 100; 101; 12290]%N in
  let r := replay [9007199254740991; 9007199254740991; 0; 0; 3;
                   9007199254740991; 9007199254740991]%N in
  mask_article char_tokenizer default_params 5 article r
  = Ok (([91; 77; 65; 83; 75; 93; 12290]%N,
         [97; 98; 99; 100; 101; 91; 77; 65; 83; 75; 93]%N), advance 6 r)
  /\ filter is_delim [91; 77; 65; 83; 75; 93; 12290]%N
     = filter is_delim (truncate char_tokenizer article).
Proof.
  intros article r.
  assert (h1 : delimiter_free (mask_token char_tokenizer))
    by (repeat constructor).
  assert (h2 : forall sent,
             In sent (sentence_split (truncate char_tokenizer article)) ->
             in_alphabet sent = false ->
             join [] (tokenize char_tokenizer sent) = sent).
  { intros sent Hin _. cbn in Hin.
    destruct Hin as [<-|[<-|[<-|[]]]]; reflexivity. }
  assert (h3 : Qltb (uniform r) (document_mask_p default_params) = false)
    by reflexivity.
  assert (h4 : mask_article char_tokenizer default_params 5 article r
               = Ok (([91; 77; 65; 83; 75; 93; 12290]%N,
                      [97; 98; 99; 100; 101; 91; 77; 65; 83; 75; 93]%N),
                     advance 6 r)) by reflexivity.
  split; [exact h4|].
  exact (masked_text_keeps_delimiters char_tokenizer default_params 5
           article _ _ r _ h1 h2 h3 h4).
Defined.

(** ** The batch pass *)

Lemma dict_get_set_same (k : string) (v : pystr) (d : pydict) :
  dict_get k (dict_set k v d) = Some v.
Proof.
  induction d as [|[k' v'] d IH]; cbn.
  - now rewrite String.eqb_refl.
  - destruct (String.eqb k k') eqn:E; cbn.
    + now rewrite String.eqb_refl.
    + now rewrite E.
Qed.

Lemma dict_get_set_other (k k' : string) (v : pystr) (d : pydict) :
  k' <> k -> dict_get k' (dict_set k v d) = dict_get k' d.
Proof.
  intros Hne. induction d as [|[k0 v0] d IH]; cbn.
  - now replace (String.eqb k' k) with false
      by (symmetry; now apply String.eqb_neq).
  - destruct (String.eqb k k0) eqn:E; cbn.
    + apply String.eqb_eq in E. subst k0.
      now replace (String.eqb k' k) with false
        by (symmetry; now apply String.eqb_neq).
    + now rewrite IH.
Qed.

Lemma mask_row_returned tok fuel data data' r r' :
  mask_row tok fuel data r = Returned data' r' ->
  masked_row_of tok fuel data data'.
Proof.
  unfold mask_row, masked_row_of.
  destruct (dict_get "article" data) as [article|]; [|discriminate].
  destruct (mask_article tok default_params fuel article r)
    as [[[mt at'] r1]| |] eqn:E; try discriminate.
  intros H. inversion H; subst; clear H.
  exists article, mt, at', r, r'. split; [reflexivity|].
  split; [assumption|]. split; [|split].
  - rewrite dict_get_set_other by discriminate.
    apply dict_get_set_same.
  - apply dict_get_set_same.
  - intros k H1 H2. now rewrite !dict_get_set_other.
Qed.

Lemma mask_rows_result tok fuel rows result r :
  mask_rows tok fuel rows result r
  = match mask_rows tok fuel rows [] r with
    | Returned out r' => Returned (result ++ out) r'
    | Crashed e => Crashed e
    | Unfinished => Unfinished
    end.
Proof.
  revert result r. induction rows as [|data rows IH]; intros result r.
  - cbn. now rewrite app_nil_r.
  - cbn [mask_rows].
    destruct (mask_row tok fuel data r) as [data' r'| |]; try reflexivity.
    rewrite (IH (result ++ [data'])), (IH ([] ++ [data'])).
    destruct (mask_rows tok fuel rows [] r') as [out r2| |];
      try reflexivity.
    now rewrite <- app_assoc.
Qed.

(** X9: a pass over the rows [xs ++ ys] is the pass over [xs] followed by
    the pass over [ys] started with the generator as [xs] left it, the
    results being appended in order; it fails as soon as one of the two
    fails. *)
Theorem mask_rows_compose (tok : Tokenizer) (fuel : nat)
        (xs ys : list pydict) (r : Random) :
  mask_rows tok fuel (xs ++ ys) [] r
  = match mask_rows tok fuel xs [] r with
    | Returned out1 r1 =>
        match mask_rows tok fuel ys [] r1 with
        | Returned out2 r2 => Returned (out1 ++ out2) r2
        | Crashed e => Crashed e
        | Unfinished => Unfinished
        end
    | Crashed e => Crashed e
    | Unfinished => Unfinished
    end.
Proof.
  revert r. induction xs as [|data xs IH]; intros r.
  - cbn [app mask_rows].
    now destruct (mask_rows tok fuel ys [] r).
  - cbn [app mask_rows].
    destruct (mask_row tok fuel data r) as [data' r'| |]; try reflexivity.
    rewrite (mask_rows_result tok fuel (xs ++ ys)),
            (mask_rows_result tok fuel xs), IH.
    destruct (mask_rows tok fuel xs [] r') as [out1 r1| |];
      try reflexivity.
    now destruct (mask_rows tok fuel ys [] r1) as [out2 r2| |].
Qed.

(** X10: a pass that returns gives one row per row of the split, in the
    same order; each is the input row in which [masked_article] and
    [answer] hold the pair [mask_article] returned for its [article], every
    other field, [article] included, being as it was. *)
Theorem mask_rows_rowwise (tok : Tokenizer) (fuel : nat)
        (rows out : list pydict) (r r' : Random) :
  mask_rows tok fuel rows [] r = Returned out r' ->
  Forall2 (masked_row_of tok fuel) rows out
  /\ length out = length rows.
Proof.
  intros H.
  assert (HF : Forall2 (masked_row_of tok fuel) rows out).
  { revert out r H. induction rows as [|data rows IH]; intros out r.
    - cbn. intros H. inversion H; subst. constructor.
    - cbn [mask_rows].
      destruct (mask_row tok fuel data r) as [data' r1| |] eqn:E;
        try discriminate.
      rewrite mask_rows_result.
      destruct (mask_rows tok fuel rows [] r1) as [out1 r2| |] eqn:E1;
        try discriminate.
      intros H. inversion H; subst; clear H. cbn [app].
      constructor; [now apply (mask_row_returned _ _ _ _ _ _ E)|].
      now apply (IH _ _ E1). }
  split; [assumption|].
  symmetry. now apply (Forall2_length HF).
Qed.

Lemma mask_rows_rowwise_witness :
  let rows := [[("title", [116]%N); ("article", [97; 98]%N)];
               [("article", [99; 12290]%N); ("answer", [120]%N)]]%string in
  let r := const_random 9007199254740991 in
  mask_rows char_tokenizer 2 rows [] r
  = Returned
      [[("title", [116]%N); ("article", [97; 98]%N);
        ("masked_article", [97; 98]%N);
        ("answer", [91; 77; 65; 83; 75; 93]%N)];
       [("article", [99; 12290]%N);
        ("answer", [91; 77; 65; 83; 75; 93]%N);
        ("masked_article", [99; 12290]%N)]]%string
      (advance 8 r)
  /\ length rows = 2%nat.
Proof.
  intros rows r.
  assert (h : mask_rows char_tokenizer 2 rows [] r
              = Returned
                  [[("title", [116]%N); ("article", [97; 98]%N);
                    ("masked_article", [97; 98]%N);
                    ("answer", [91; 77; 65; 83; 75; 93]%N)];
                   [("article", [99; 12290]%N);
                    ("answer", [91; 77; 65; 83; 75; 93]%N);
                    ("masked_article", [99; 12290]%N)]]%string
                  (advance 8 r)) by reflexivity.
  split; [exact h|].
  exact (eq_sym (proj2 (mask_rows_rowwise char_tokenizer 2 rows _ r _ h))).
Defined.

Lemma mask_rows_length tok fuel rows out r r' :
  mask_rows tok fuel rows [] r = Returned out r' ->
  length out = length rows.
Proof.
  revert out r. induction rows as [|data rows IH]; intros out r.
  - cbn. intros H. now inversion H.
  - cbn [mask_rows].
    destruct (mask_row tok fuel data r) as [data' r1| |];
      try discriminate.
    rewrite mask_rows_result.
    destruct (mask_rows tok fuel rows [] r1) as [out1 r2| |] eqn:E1;
      try discriminate.
    intros H. inversion H; subst; clear H. cbn [app length].
    f_equal. now apply (IH _ _ E1).
Qed.

(** X11: the script writes the train file before it masks the test
    split. When it ends normally the disk holds the train file and then
    the test file, each with one row per row of its split, and the rows
    are those of a single pass over the train rows followed by the test
    rows; when it does not, the disk holds nothing, or the train file
    alone, complete. *)
Theorem main_writes_in_order (tok : Tokenizer) (fuel : nat)
        (dataset : Dataset) (r : Random) :
  match main tok fuel dataset r with
  | (disk, Returned _ r2) =>
      exists train_rows test_rows,
        disk = [("dataset/mlm_train2.pk"%string, train_rows);
                ("dataset/mlm_test2.pk"%string, test_rows)]
        /\ length train_rows = length (train dataset)
        /\ length test_rows = length (test dataset)
        /\ mask_rows tok fuel (train dataset ++ test dataset) [] r
           = Returned (train_rows ++ test_rows) r2
  | (disk, _) =>
      disk = []
      \/ exists train_rows r1,
           disk = [("dataset/mlm_train2.pk"%string, train_rows)]
           /\ mask_rows tok fuel (train dataset) [] r
              = Returned train_rows r1
           /\ length train_rows = length (train dataset)
  end.
Proof.
  unfold main. rewrite mask_rows_compose.
  destruct (mask_rows tok fuel (train dataset) [] r) as [out1 r1| |] eqn:E1;
    try (now left).
  pose proof (mask_rows_length _ _ _ _ _ _ E1) as L1.
  destruct (mask_rows tok fuel (test dataset) [] r1) as [out2 r2| |] eqn:E2.
  - pose proof (mask_rows_length _ _ _ _ _ _ E2) as L2.
    exists out1, out2. repeat split; assumption || reflexivity.
  - right. exists out1, r1. repeat split; assumption || reflexivity.
  - right. exists out1, r1. repeat split; assumption || reflexivity.
Qed.

(** X12: a pass crashes only on a row without the key [article]: when
    every row has it, no exception comes out of the pass, and the pass
    returns as soon as the bound allows one iteration per token of the
    longest segment of every article; a row without it stops the pass
    with [KeyError] once the rows before it have been masked, whatever
    follows. *)
Theorem pass_crashes_only_on_missing_article (tok : Tokenizer) (fuel : nat)
        (rows : list pydict) (r : Random) :
  (Forall (fun data => dict_get "article" data <> None) rows ->
   forall e, mask_rows tok fuel rows [] r <> Crashed e)
  /\ (Forall (fun data => exists article,
                 dict_get "article" data = Some article
                 /\ (token_bound tok article <= fuel)%nat) rows ->
      exists out r', mask_rows tok fuel rows [] r = Returned out r')
  /\ (forall pre bad post out r1,
        rows = pre ++ bad :: post ->
        mask_rows tok fuel pre [] r = Returned out r1 ->
        dict_get "article" bad = None ->
        mask_rows tok fuel rows [] r = Crashed (KeyError "article")).
Proof.
  assert (Hrange : 0 < min_ngram_length default_params
                   < max_ngram_length default_params) by (cbn; lia).
  split; [|split].
  - intros Hrows. revert r.
    induction Hrows as [|data rows Hd _ IH]; intros r e; [discriminate|].
    cbn [mask_rows]. unfold mask_row.
    destruct (dict_get "article" data) as [article|]; [|congruence].
    pose proof (mask_article_no_raise tok default_params Hrange fuel
                  article r) as Hno.
    destruct (mask_article tok default_params fuel article r)
      as [[[mt at'] r1]| |]; [|now destruct Hno|discriminate].
    rewrite mask_rows_result.
    specialize (IH r1 e).
    destruct (mask_rows tok fuel rows [] r1); congruence.
  - intros Hrows. revert r.
    induction Hrows as [|data rows (article & Hd & Hfuel) _ IH]; intros r.
    + now do 2 eexists.
    + cbn [mask_rows]. unfold mask_row. rewrite Hd.
      destruct (mask_article_returns tok default_params fuel article r
                  Hrange Hfuel) as ([mt at'] & r1 & E).
      rewrite E, mask_rows_result.
      destruct (IH r1) as (out & r' & E').
      rewrite E'. now do 2 eexists.
  - intros pre bad post out r1 -> Hpre Hbad.
    rewrite mask_rows_compose, Hpre.
    cbn [mask_rows]. unfold mask_row. now rewrite Hbad.
Qed.

Lemma pass_crashes_only_on_missing_article_witness :
  let good := [("article", [97]%N)]%string in
  let bad := [("title", [116]%N)]%string in
  let r := const_random 9007199254740991 in
  (Forall (fun data => dict_get "article" data <> None) [good; good]
   /\ dict_get "article" bad = None)
  /\ (forall e, mask_rows char_tokenizer 0 [good; good] [] r <> Crashed e)
  /\ mask_rows char_tokenizer 1 [good; bad; good] [] r
     = Crashed (KeyError "article").
Proof.
  intros good bad r.
  assert (h1 : Forall (fun data => dict_get "article" data <> None)
                      [good; good])
    by (repeat constructor; discriminate).
  assert (h2 : dict_get "article" bad = None) by reflexivity.
  split; [exact (conj h1 h2)|]. split.
  - exact (proj1 (pass_crashes_only_on_missing_article char_tokenizer 0
                    [good; good] r) h1).
  - exact (proj2 (proj2 (pass_crashes_only_on_missing_article
                           char_tokenizer 1 [good; bad; good] r))
                 [good] bad [good] _ _ eq_refl eq_refl h2).
Defined.

(** ** The warm-up schedule *)



(** X14: [total_step] divides by zero exactly when
    [batch_size * accumulate_step = 0]; for a positive product and a
    number of epochs that is not negative it counts whole groups of
    [batch_size * accumulate_step] samples only, so it covers at most the
    samples of all epochs and misses fewer than one group per epoch, and
    it is 0 when the dataset is smaller than one group. *)
Theorem total_step_bounds (epoch_num dataset_size batch_size
                           accumulate_step : Z) :
  (total_step epoch_num dataset_size batch_size accumulate_step = None
   <-> batch_size * accumulate_step = 0)
  /\ (0 < batch_size * accumulate_step -> 0 <= epoch_num ->
      exists t,
        total_step epoch_num dataset_size batch_size accumulate_step
        = Some t
        /\ t * (batch_size * accumulate_step) <= epoch_num * dataset_size
        /\ epoch_num * dataset_size
           <= t * (batch_size * accumulate_step)
              + epoch_num * (batch_size * accumulate_step - 1)
        /\ (0 <= dataset_size < batch_size * accumulate_step -> t = 0)).
Proof.
  unfold total_step, floordiv. split.
  - destruct (batch_size * accumulate_step =? 0) eqn:E; cbn.
    + apply Z.eqb_eq in E. now split.
    + apply Z.eqb_neq in E. split; [discriminate|contradiction].
  - intros Hg He.
    replace (batch_size * accumulate_step =? 0) with false
      by (symmetry; apply Z.eqb_neq; lia).
    cbn [option_map]. eexists. split; [reflexivity|].
    set (g := batch_size * accumulate_step) in *.
    pose proof (Z.div_mod dataset_size g ltac:(lia)) as Hdm.
    pose proof (Z.mod_pos_bound dataset_size g Hg) as Hm.
    split; [nia|]. split; [nia|].
    intros Hsmall. rewrite Z.div_small by assumption. lia.
Qed.

Lemma total_step_bounds_witness :
  (0 < 8 * 4 /\ 0 <= 3)
  /\ total_step 3 100 8 4 = Some 9
  /\ total_step 3 100 8 0 = None
  /\ total_step 3 31 8 4 = Some 0.
Proof.
  split; [lia|]. split; [reflexivity|]. split.
  - exact (proj2 (proj1 (total_step_bounds 3 100 8 0)) eq_refl).
  - reflexivity.
Defined.
